(** * The workflow validator of [src/lib/workflows/workflow-validator.ts]

    A shallow embedding of the validator passes
    ([validateWorkflowStructure], [validateTrigger], [validateModulePaths],
    [validateVariableReferences], [validateOutputDisplay],
    [validateWorkflowComplete]) together with the fragment of the JavaScript
    runtime they rely on: JSON values and [JSON.stringify], string helpers
    ([split], [includes], [join]), template-literal coercion, backtracking
    regular expressions, [Set] and the AJV validator objects. *)

From stdpp Require Import gmap strings list pretty.
From Stdlib Require Import Ascii ZArith Lia.
From Stdlib Require String.

Local Open Scope Z_scope.
Local Open Scope nat_scope.
Local Open Scope stdpp_scope.

(** ** JavaScript values and string primitives *)

Module Js.

(** A parsed JSON document.  Strings are sequences of 8-bit code units;
    numbers are the integral ones (they print in decimal); the pairs of an
    object are listed in property enumeration order. *)
#[warnings="-register-all"]
Inductive json : Type :=
| JNull
| JBool (b : bool)
| JNum (z : Z)
| JStr (s : string)
| JArr (l : list json)
| JObj (l : list (string * json)).

(** [Array.prototype.join] on an array of strings. *)
Definition join (sep : string) (l : list string) : string := String.concat sep l.

(** [String.prototype.split] with a one-character separator. *)
Fixpoint split (sep : ascii) (s : string) : list string :=
  match s with
  | EmptyString => [""]
  | String c s' =>
      if Ascii.eqb c sep then "" :: split sep s'
      else match split sep s' with
           | x :: xs => String c x :: xs
           | [] => [String c ""]
           end
  end.

(** [hay.includes(needle)]. *)
Fixpoint includes (needle hay : string) : bool :=
  String.prefix needle hay ||
  match hay with
  | EmptyString => false
  | String _ hay' => includes needle hay'
  end.

Definition hex_digit (n : N) : ascii :=
  match n with
  | 0 => "0" | 1 => "1" | 2 => "2" | 3 => "3" | 4 => "4" | 5 => "5"
  | 6 => "6" | 7 => "7" | 8 => "8" | 9 => "9" | 10 => "a" | 11 => "b"
  | 12 => "c" | 13 => "d" | 14 => "e" | _ => "f"
  end%N%char.

Definition dquote : string := String (ascii_of_N 34) "".

(** One code unit under [QuoteJSONString]. *)
Definition quote_char (c : ascii) : string :=
  let n := N_of_ascii c in
  if N.eqb n 34 then "\" +:+ dquote
  else if N.eqb n 92 then "\\"
  else if N.eqb n 8 then "\b"
  else if N.eqb n 12 then "\f"
  else if N.eqb n 10 then "\n"
  else if N.eqb n 13 then "\r"
  else if N.eqb n 9 then "\t"
  else if N.ltb n 32 then
    "\u00" +:+ String (hex_digit (N.div n 16)) (String (hex_digit (N.modulo n 16)) "")
  else String c "".

Fixpoint quote_body (s : string) : string :=
  match s with
  | EmptyString => ""
  | String c s' => quote_char c +:+ quote_body s'
  end.

Definition quote (s : string) : string := dquote +:+ quote_body s +:+ dquote.

(** [JSON.stringify(v)] without indentation. *)
Fixpoint JSON_stringify (v : json) : string :=
  match v with
  | JNull => "null"
  | JBool true => "true"
  | JBool false => "false"
  | JNum z => pretty z
  | JStr s => quote s
  | JArr l => "[" +:+ join "," (map JSON_stringify l) +:+ "]"
  | JObj l =>
      "{" +:+ join "," (map (fun kv => quote (fst kv) +:+ ":" +:+ JSON_stringify (snd kv)) l)
          +:+ "}"
  end.

(** [String(v)], the coercion a template literal applies to [${v}]. *)
Fixpoint to_String (v : json) : string :=
  match v with
  | JNull => "null"
  | JBool true => "true"
  | JBool false => "false"
  | JNum z => pretty z
  | JStr s => s
  | JArr l =>
      join "," (map (fun x => match x with JNull => "" | _ => to_String x end) l)
  | JObj _ => "[object Object]"
  end.

(** [${v}] for a possibly [undefined] value. *)
Definition template (v : option json) : string :=
  match v with
  | None => "undefined"
  | Some x => to_String x
  end.

Definition template_str (v : option string) : string :=
  match v with
  | None => "undefined"
  | Some s => s
  end.

(** [typeof v]. *)
Definition typeof (v : option json) : string :=
  match v with
  | None => "undefined"
  | Some JNull => "object"
  | Some (JBool _) => "boolean"
  | Some (JNum _) => "number"
  | Some (JStr _) => "string"
  | Some (JArr _) => "object"
  | Some (JObj _) => "object"
  end.

(** Own-property lookup [o.k] on an object ([undefined] elsewhere). *)
Fixpoint assoc (k : string) (l : list (string * json)) : option json :=
  match l with
  | [] => None
  | (k', v) :: l' => if String.eqb k k' then Some v else assoc k l'
  end.

Definition prop (k : string) (v : json) : option json :=
  match v with
  | JObj l => assoc k l
  | _ => None
  end.

(** The characters [JSON.stringify] copies as they are. *)
Definition plain (c : ascii) : bool :=
  match quote_char c with
  | String c' EmptyString => Ascii.eqb c c'
  | _ => false
  end.

End Js.

Import Js.

(** ** Backtracking regular expressions

    The fragment of ECMAScript patterns the validator uses: literal
    characters, the classes [\w] and [\d], concatenation, greedy [*] and [+],
    and capturing groups outside repetitions.  A matcher returns every way
    to match at the start of the input, in the order the backtracking engine
    of the language tries them; the engine commits to the first. *)

Module Regex.

Inductive regex : Type :=
| Eps
| Chr (c : ascii)
| Cls (p : ascii -> bool)
| Seq (r1 r2 : regex)
| Star (r : regex)
| Grp (i : nat) (r : regex).

(** [r+] *)
Definition Plus (r : regex) : regex := Seq r (Star r).

(** A literal string. *)
Fixpoint Lit (s : string) : regex :=
  match s with
  | EmptyString => Eps
  | String c s' => Seq (Chr c) (Lit s')
  end.

Definition in_range (lo hi : N) (c : ascii) : bool :=
  let n := N_of_ascii c in N.leb lo n && N.leb n hi.

(** [\d] is [0-9]; [\w] is [A-Za-z0-9_] (no [u] or [i] flag). *)
Definition is_digit (c : ascii) : bool := in_range 48 57 c.

Definition is_word (c : ascii) : bool :=
  in_range 65 90 c || in_range 97 122 c || is_digit c || N.eqb (N_of_ascii c) 95.

(** Every character of [s] is in the class [p]. *)
Fixpoint all_chars (p : ascii -> bool) (s : string) : bool :=
  match s with
  | EmptyString => true
  | String c s' => p c && all_chars p s'
  end.

(** Captures: group number and captured text, most recent first. *)
Definition caps : Type := list (nat * string).

(** The part of [s] in front of its suffix [rest]. *)
Definition consumed (s rest : string) : string :=
  String.substring 0 (String.length s - String.length rest) s.

Definition shorter (s1 s : string) : bool :=
  Nat.ltb (String.length s1) (String.length s).

(** The iterations of a starred pattern whose body matches by [step]: one
    more iteration is tried before stopping, and an iteration that consumed
    nothing is given up.  [n] bounds the number of iterations. *)
Fixpoint star_loop (step : string -> caps -> list (string * caps))
    (n : nat) (s : string) (cs : caps) {struct n} : list (string * caps) :=
  match n with
  | O => [(s, cs)]
  | S n' =>
      flat_map (fun x => if shorter (fst x) s then star_loop step n' (fst x) (snd x) else [])
               (step s cs)
      ++ [(s, cs)]
  end.

(** All matches of [r] at the start of [s], as (remaining input, captures),
    in backtracking order. *)
Fixpoint rmatch (r : regex) : string -> caps -> list (string * caps) :=
  match r with
  | Eps => fun s cs => [(s, cs)]
  | Chr c => fun s cs =>
      match s with
      | String c' s' => if Ascii.eqb c' c then [(s', cs)] else []
      | EmptyString => []
      end
  | Cls p => fun s cs =>
      match s with
      | String c' s' => if p c' then [(s', cs)] else []
      | EmptyString => []
      end
  | Seq r1 r2 => fun s cs =>
      flat_map (fun x => rmatch r2 (fst x) (snd x)) (rmatch r1 s cs)
  | Star r' => fun s cs => star_loop (rmatch r') (String.length s) s cs
  | Grp i r' => fun s cs =>
      map (fun x => (fst x, (i, consumed s (fst x)) :: snd x)) (rmatch r' s cs)
  end.

(** One attempt at the current position. *)
Definition match_here (r : regex) (s : string) : option (string * caps) :=
  head (rmatch r s []).

(** [RegExp.prototype.exec] without the sticky flag: the leftmost position at
    which an attempt succeeds.  Returns the matched text, the input after
    it, and the captures. *)
Fixpoint search (r : regex) (s : string) : option (string * string * caps) :=
  match match_here r s with
  | Some (rest, cs) => Some (consumed s rest, rest, cs)
  | None =>
      match s with
      | EmptyString => None
      | String _ s' => search r s'
      end
  end.

Fixpoint capture (i : nat) (cs : caps) : option string :=
  match cs with
  | [] => None
  | (j, t) :: cs' => if Nat.eqb i j then Some t else capture i cs'
  end.

(** [s.match(r)?.[i]] for a pattern without the [g] flag. *)
Definition match_group (i : nat) (r : regex) (s : string) : option string :=
  match search r s with
  | Some (_, _, cs) => capture i cs
  | None => None
  end.

(** [s.match(r) || []] for a pattern with the [g] flag: the texts of the
    successive matches.  After an empty match the scan moves on by one
    character. *)
Fixpoint match_all_fuel (n : nat) (r : regex) (s : string) : list string :=
  match n with
  | O => []
  | S n' =>
      match search r s with
      | None => []
      | Some (m, rest, _) =>
          m :: match m, rest with
               | EmptyString, EmptyString => []
               | EmptyString, String _ rest' => match_all_fuel n' r rest'
               | _, _ => match_all_fuel n' r rest
               end
      end
  end.

Definition match_all (r : regex) (s : string) : list string :=
  match_all_fuel (S (String.length s)) r s.

(** The language of a pattern. *)
Inductive lang : regex -> string -> Prop :=
| L_Eps : lang Eps ""
| L_Chr c : lang (Chr c) (String c "")
| L_Cls p c : p c = true -> lang (Cls p) (String c "")
| L_Seq r1 r2 s1 s2 : lang r1 s1 -> lang r2 s2 -> lang (Seq r1 r2) (s1 +:+ s2)
| L_Star_nil r : lang (Star r) ""
| L_Star_cons r s1 s2 : lang r s1 -> lang (Star r) s2 -> lang (Star r) (s1 +:+ s2)
| L_Grp i r s : lang r s -> lang (Grp i r) s.

(** [rest] does not start with a character of the class [p]. *)
Definition stops (p : ascii -> bool) (rest : string) : Prop :=
  match rest with
  | EmptyString => True
  | String c _ => p c = false
  end.

(** A pattern without capturing groups. *)
Fixpoint no_groups (r : regex) : Prop :=
  match r with
  | Grp _ _ => False
  | Seq r1 r2 => no_groups r1 /\ no_groups r2
  | Star r' => no_groups r'
  | _ => True
  end.

(** Every character a pattern can consume satisfies [q]. *)
Fixpoint consumes_only (q : ascii -> bool) (r : regex) : Prop :=
  match r with
  | Eps => True
  | Chr c => q c = true
  | Cls p => forall c, p c = true -> q c = true
  | Seq r1 r2 => consumes_only q r1 /\ consumes_only q r2
  | Star r' => consumes_only q r'
  | Grp _ r' => consumes_only q r'
  end.

(** Any character but the opening brace. *)
Definition not_open (c : ascii) : bool := negb (Ascii.eqb c "{").

End Regex.

Import Regex.

(** ** AJV validator objects *)

Module Ajv.

(** The properties of [error.params] the formatter reads; each is
    [undefined] for the keywords that do not set it. *)
Record ErrorParams : Type := {
  missingProperty : option string;
  params_type : option string;
  allowedValues : option (list json);
  pattern : option string;
  limit : option Z;
  allowedValue : option json
}.

Record ErrorObject : Type := {
  instancePath : string;
  e_keyword : string;
  e_message : option string;
  e_params : ErrorParams;
  e_data : option json
}.

(** One call [v(data)] of a compiled validator: the boolean it returns and
    the value it leaves in [v.errors]. *)
Record Outcome : Type := {
  ok : bool;
  reported : option (list ErrorObject)
}.

(** The four compiled validators of the module and the mutable [errors]
    property of each. *)
Inductive Validator : Type :=
| validateWorkflow
| validateChatInputTrigger
| validateCronTrigger
| validateChatTrigger.

Record State : Type := {
  workflow_errors : option (list ErrorObject);
  chatInput_errors : option (list ErrorObject);
  cron_errors : option (list ErrorObject);
  chat_errors : option (list ErrorObject)
}.

Definition errors_of (v : Validator) (st : State) : option (list ErrorObject) :=
  match v with
  | validateWorkflow => workflow_errors st
  | validateChatInputTrigger => chatInput_errors st
  | validateCronTrigger => cron_errors st
  | validateChatTrigger => chat_errors st
  end.

Definition set_errors (v : Validator) (e : option (list ErrorObject)) (st : State) : State :=
  match v with
  | validateWorkflow =>
      {| workflow_errors := e; chatInput_errors := chatInput_errors st;
         cron_errors := cron_errors st; chat_errors := chat_errors st |}
  | validateChatInputTrigger =>
      {| workflow_errors := workflow_errors st; chatInput_errors := e;
         cron_errors := cron_errors st; chat_errors := chat_errors st |}
  | validateCronTrigger =>
      {| workflow_errors := workflow_errors st; chatInput_errors := chatInput_errors st;
         cron_errors := e; chat_errors := chat_errors st |}
  | validateChatTrigger =>
      {| workflow_errors := workflow_errors st; chatInput_errors := chatInput_errors st;
         cron_errors := cron_errors st; chat_errors := e |}
  end.

(** No validator has run yet: every [errors] is null. *)
Definition fresh : State :=
  {| workflow_errors := None; chatInput_errors := None;
     cron_errors := None; chat_errors := None |}.

(** Calling validator [v], whose schema semantics is [sem], on [data]. *)
Definition call (sem : Validator -> json -> Outcome) (v : Validator) (data : json)
    (st : State) : bool * State :=
  (ok (sem v data), set_errors v (reported (sem v data)) st).

End Ajv.

Import Ajv.

(** ** Data of the validator *)

Record ValidationError : Type := {
  path : string;
  message : string;
  keyword : string;
  params : option ErrorParams;
  suggestion : option string
}.

Record ValidationResult : Type := {
  valid : bool;
  errors : list ValidationError
}.

(** The module registry: categories, their modules, their functions. *)
Record FunctionInfo : Type := {
  fn_name : string;
  description : string;
  signature : string
}.

Record ModuleInfo : Type := {
  mod_name : string;
  functions : list FunctionInfo
}.

Record Category : Type := {
  cat_name : string;
  modules : list ModuleInfo
}.

(** The shape [validateWorkflowComplete] casts a schema-valid document to. *)
Record Step : Type := {
  id : string;
  module : string;
  inputs : json;
  outputAs : option string
}.

Record Trigger : Type := {
  trigger_type : string;
  config : json
}.

Record Column : Type := {
  key : string;
  label : string
}.

Record OutputDisplay : Type := {
  display_type : string;
  columns : option (list Column)
}.

Record Config : Type := {
  steps : list Step;
  outputDisplay : option OutputDisplay
}.

Record Workflow : Type := {
  trigger : option Trigger;
  wf_config : Config
}.

(** Truthiness of a string: the empty string is falsy. *)
Definition truthy (s : string) : bool := negb (String.eqb s "").

Definition or_default (s : option string) (d : string) : string :=
  match s with
  | Some x => if truthy x then x else d
  | None => d
  end.

(** [Array.prototype.join] on an array of JSON values: [null] elements
    print as nothing. *)
Definition join_values (sep : string) (l : list json) : string :=
  join sep (map (fun x => match x with JNull => "" | _ => to_String x end) l).

Definition quoted (s : string) : string := dquote +:+ s +:+ dquote.

(** ** [formatAjvErrors] *)

Definition capability_pattern : string := "^[a-z-]+\.[a-z-]+\.[a-zA-Z]+$".
Definition template_pattern : string := "^\{\{[^}]+\}\}$".

Definition formatAjvError (error : ErrorObject) : ValidationError :=
  let path := or_default (Some (instancePath error)) "root" in
  let message := or_default (e_message error) "Validation failed" in
  let p := e_params error in
  let kw := e_keyword error in
  let enhanced : string * option string :=
    if String.eqb kw "required" then
      ("Missing required field: " +:+ template_str (missingProperty p),
       Some ("Add " +:+ quoted (template_str (missingProperty p)) +:+ " to the object"))
    else if String.eqb kw "type" then
      ("Expected type " +:+ quoted (template_str (params_type p)) +:+ " but got "
         +:+ quoted (typeof (e_data error)),
       Some ("Change value to type " +:+ template_str (params_type p)))
    else if String.eqb kw "enum" then
      ("Value must be one of: "
         +:+ template_str (join_values ", " <$> allowedValues p),
       Some "Use one of the allowed values")
    else if String.eqb kw "pattern" then
      ("Value does not match pattern: " +:+ template_str (pattern p),
       match pattern p with
       | Some pat =>
           if String.eqb pat capability_pattern then
             Some ("Use format: category.module.function (e.g., "
                     +:+ quoted "ai.openai.generateText" +:+ ")")
           else if String.eqb pat template_pattern then
             Some ("Use format: {{variableName}} (e.g., " +:+ quoted "{{result}}" +:+ ")")
           else None
       | None => None
       end)
    else if String.eqb kw "minItems" then
      ("Array must have at least " +:+ template_str (pretty <$> limit p) +:+ " items",
       Some "Add more items to the array")
    else if String.eqb kw "minLength" then
      ("String must be at least " +:+ template_str (pretty <$> limit p) +:+ " characters",
       Some "Use a longer string")
    else if String.eqb kw "maxLength" then
      ("String must be at most " +:+ template_str (pretty <$> limit p) +:+ " characters",
       Some "Use a shorter string")
    else if String.eqb kw "const" then
      ("Value must be exactly: " +:+ template (allowedValue p),
       Some ("Change to " +:+ quoted (template (allowedValue p))))
    else (message, None) in
  {| path := path;
     message := fst enhanced;
     keyword := kw;
     params := Some p;
     suggestion := snd enhanced |}.

Definition formatAjvErrors (errs : option (list ErrorObject)) : list ValidationError :=
  match errs with
  | None => []
  | Some l => map formatAjvError l
  end.

Definition is_empty {A : Type} (l : list A) : bool := Nat.eqb (length l) 0.

(** ** The cast of a schema-valid document *)

Definition as_string (v : option json) : option string :=
  match v with
  | Some (JStr s) => Some s
  | _ => None
  end.

Definition as_object (v : option json) : option json :=
  match v with
  | Some (JObj l) => Some (JObj l)
  | _ => None
  end.

(** An optional property: absent, or present with the declared type. *)
Definition optional {A : Type} (f : option json -> option A) (v : option json)
    : option (option A) :=
  match v with
  | None => Some None
  | Some _ => Some <$> f v
  end.

Definition as_array {A : Type} (f : json -> option A) (v : option json) : option (list A) :=
  match v with
  | Some (JArr l) => mapM f l
  | _ => None
  end.

Definition as_Step (v : json) : option Step :=
  i ← as_string (prop "id" v);
  m ← as_string (prop "module" v);
  ins ← as_object (prop "inputs" v);
  out ← optional as_string (prop "outputAs" v);
  Some {| id := i; module := m; inputs := ins; outputAs := out |}.

Definition as_Trigger (v : option json) : option Trigger :=
  t ← as_object v;
  ty ← as_string (prop "type" t);
  c ← as_object (prop "config" t);
  Some {| trigger_type := ty; config := c |}.

Definition as_Column (v : json) : option Column :=
  k ← as_string (prop "key" v);
  l ← as_string (prop "label" v);
  Some {| key := k; label := l |}.

Definition as_OutputDisplay (v : option json) : option OutputDisplay :=
  d ← as_object v;
  ty ← as_string (prop "type" d);
  cols ← optional (as_array as_Column) (prop "columns" d);
  Some {| display_type := ty; columns := cols |}.

(** [workflow as { trigger?: ...; config: { steps: ...; outputDisplay?: ... } }].
    [None] when the document does not have the shape the cast asserts. *)
Definition as_Workflow (workflow : json) : option Workflow :=
  t ← optional as_Trigger (prop "trigger" workflow);
  c ← as_object (prop "config" workflow);
  ss ← as_array as_Step (prop "steps" c);
  od ← optional as_OutputDisplay (prop "outputDisplay" c);
  Some {| trigger := t; wf_config := {| steps := ss; outputDisplay := od |} |}.

(** ** The validation passes *)

(** [/\{\{(\w+)(?:\.\w+)*(?:\[\d+\])*\}\}/g] *)
Definition ref_re : regex :=
  Seq (Lit "{{")
 (Seq (Grp 1 (Plus (Cls is_word)))
 (Seq (Star (Seq (Chr ".") (Plus (Cls is_word))))
 (Seq (Star (Seq (Chr "[") (Seq (Plus (Cls is_digit)) (Chr "]"))))
      (Lit "}}")))).

(** [/\{\{(\w+)/] *)
Definition name_re : regex := Seq (Lit "{{") (Grp 1 (Plus (Cls is_word))).

(** [declaredVars.has(x)] *)
Definition has (x : string) (s : gset string) : bool := bool_decide (x ∈ s).

Definition builtins : gset string := {[ "user"; "trigger" ]}.

Definition undeclared_error (index : nat) (varName : string) : ValidationError :=
  {| path := "/config/steps/" +:+ pretty index +:+ "/inputs";
     message := "Reference to undeclared variable: " +:+ varName;
     keyword := "variable-declared";
     params := None;
     suggestion :=
       Some ("Declare " +:+ quoted varName +:+ " in a previous step using "
               +:+ quoted "outputAs" +:+ ", or check for typos") |}.

(** The references found in a step's serialized inputs. *)
Definition varRefs (step : Step) : list string :=
  match_all ref_re (JSON_stringify (inputs step)).

(** The body of [varRefs.forEach]: what one reference pushes. *)
Definition check_ref (declaredVars : gset string) (index : nat) (ref : string)
    : list ValidationError :=
  match match_group 1 name_re ref with
  | Some varName =>
      if truthy varName && negb (has varName declaredVars)
      then [undeclared_error index varName]
      else []
  | None => []
  end.

(** [if (step.outputAs) declaredVars.add(step.outputAs)] *)
Definition register (step : Step) (declaredVars : gset string) : gset string :=
  match outputAs step with
  | Some v => if truthy v then {[ v ]} ∪ declaredVars else declaredVars
  | None => declaredVars
  end.

(** The two accumulators of [validateVariableReferences]. *)
Record VarState : Type := {
  var_errors : list ValidationError;
  declaredVars : gset string
}.

(** [varRefs.forEach(ref => ...)]: what the references of one step push. *)
Definition step_errors (declaredVars : gset string) (index : nat) (step : Step)
    : list ValidationError :=
  flat_map (check_ref declaredVars index) (varRefs step).

(** The body of [steps.forEach((step, index) => ...)]. *)
Definition visit (step : Step) (index : nat) (st : VarState) : VarState :=
  {| var_errors := var_errors st ++ step_errors (declaredVars st) index step;
     declaredVars := register step (declaredVars st) |}.

Fixpoint forEach_from (index : nat) (l : list Step) (st : VarState) : VarState :=
  match l with
  | [] => st
  | step :: rest => forEach_from (S index) rest (visit step index st)
  end.

(** [errors = []] and [declaredVars = new Set(['user', 'trigger'])]. *)
Definition init_vars : VarState := {| var_errors := []; declaredVars := builtins |}.

Definition validateVariableReferences (l : list Step) : ValidationResult :=
  let final := forEach_from 0 l init_vars in
  {| valid := is_empty (var_errors final); errors := var_errors final |}.

(** The bound names when the walk reaches the step of index [k]. *)
Definition declared_before (l : list Step) (k : nat) : gset string :=
  declaredVars (forEach_from 0 (take k l) init_vars).

(** The names a step refers to: the first capture of each reference. *)
Definition referenced (step : Step) (n : string) : Prop :=
  exists ref, In ref (varRefs step) /\ match_group 1 name_re ref = Some n.

Definition singleValueModules : list string :=
  ["average"; "sum"; "count"; "min"; "max"; "hashSHA256"; "generateUUID"; "now"; "toISO"].

Definition table_columns_error : ValidationError :=
  {| path := "/config/outputDisplay/columns";
     message := "Table display requires columns array";
     keyword := "table-columns";
     params := None;
     suggestion := Some "Add columns array with at least one column definition" |}.

Definition type_mismatch_error : ValidationError :=
  {| path := "/config/outputDisplay/type";
     message := "Last step likely returns single value, but output display is "
                  +:+ quoted "table" +:+ " (expects array)";
     keyword := "output-type-mismatch";
     params := None;
     suggestion :=
       Some ("Change outputDisplay.type to " +:+ quoted "text" +:+ " or " +:+ quoted "json"
               +:+ ", or ensure last step returns an array") |}.

(** [!outputDisplay.columns || outputDisplay.columns.length === 0] *)
Definition no_columns (d : OutputDisplay) : bool :=
  match columns d with
  | None => true
  | Some cols => is_empty cols
  end.

Definition validateOutputDisplay (od : option OutputDisplay) (lastStep : option Step)
    : ValidationResult :=
  match od, lastStep with
  | Some d, Some st =>
      let errs1 :=
        if String.eqb (display_type d) "table" && no_columns d
        then [table_columns_error] else [] in
      let errs2 :=
        if String.eqb (display_type d) "table"
           && existsb (fun m => includes m (module st)) singleValueModules
        then errs1 ++ [type_mismatch_error] else errs1 in
      {| valid := is_empty errs2; errors := errs2 |}
  | _, _ => {| valid := true; errors := [] |}
  end.

(** [steps[steps.length - 1]]; [undefined] on the empty array. *)
Definition last_step (l : list Step) : option Step :=
  match l with
  | [] => None
  | _ => l !! (length l - 1)
  end.

(** The keywords of the diagnostics the three later passes emit. *)
Definition pass_keywords : list string :=
  ["module-exists"; "variable-declared"; "table-columns"; "output-type-mismatch"].

Section Validator.

(** The schemas of [workflow-schema.ts], as the outcome of each compiled
    validator on a datum, and the registry [getModuleRegistry()] returns. *)
Variable sem : Validator -> json -> Outcome.
Variable registry : list Category.

(** The call to [logger.debug] on failure writes a log line and nothing
    else; it is left out. *)
Definition validateWorkflowStructure (workflow : json) (st : State)
    : ValidationResult * State :=
  let (ok, st') := call sem validateWorkflow workflow st in
  if negb ok then
    ({| valid := false; errors := formatAjvErrors (errors_of validateWorkflow st') |}, st')
  else ({| valid := true; errors := [] |}, st').

Definition validateTrigger (t : Trigger) (st : State) : ValidationResult * State :=
  let triggerValidator :=
    if String.eqb (trigger_type t) "chat-input" then Some validateChatInputTrigger
    else if String.eqb (trigger_type t) "cron" then Some validateCronTrigger
    else if String.eqb (trigger_type t) "chat" then Some validateChatTrigger
    else None in
  match triggerValidator with
  | None => ({| valid := true; errors := [] |}, st)
  | Some v =>
      let (ok, st') := call sem v (config t) st in
      if negb ok then
        ({| valid := false; errors := formatAjvErrors (errors_of v st') |}, st')
      else ({| valid := true; errors := [] |}, st')
  end.

Definition full_path (c : Category) (m : ModuleInfo) (f : FunctionInfo) : string :=
  cat_name c +:+ "." +:+ mod_name m +:+ "." +:+ fn_name f.

(** The three nested [forEach] loops filling [validPaths]. *)
Definition validPaths : gset string :=
  foldl (fun acc c =>
    foldl (fun acc m =>
      foldl (fun acc f => {[ full_path c m f ]} ∪ acc) acc (functions m))
      acc (modules c))
    ∅ registry.

Definition suggest (step : Step) : string :=
  let parts := split "." (module step) in
  let categoryName := parts !! 0 in
  let moduleName := parts !! 1 in
  match List.find (fun c => bool_decide (Some (cat_name c) = categoryName)) registry with
  | None =>
      "Category " +:+ quoted (template_str categoryName) +:+ " not found. Available: "
        +:+ join ", " (map cat_name registry)
  | Some category =>
      match List.find (fun m => bool_decide (Some (mod_name m) = moduleName))
                      (modules category) with
      | None =>
          "Module " +:+ quoted (template_str moduleName) +:+ " not found in category "
            +:+ quoted (template_str categoryName) +:+ ". Available: "
            +:+ join ", " (map mod_name (modules category))
      | Some foundModule =>
          "Function not found in " +:+ template_str categoryName +:+ "."
            +:+ template_str moduleName +:+ ". Available: "
            +:+ join ", " (map fn_name (functions foundModule))
      end
  end.

Definition module_error (step : Step) : ValidationError :=
  {| path := "/config/steps/" +:+ id step +:+ "/module";
     message := "Module path " +:+ quoted (module step) +:+ " not found in registry";
     keyword := "module-exists";
     params := None;
     suggestion := Some (suggest step) |}.

(** The body of [steps.forEach(step => ...)] in [validateModulePaths]. *)
Definition check_module (step : Step) : list ValidationError :=
  if negb (has (module step) validPaths) then [module_error step] else [].

Definition validateModulePaths (l : list Step) : ValidationResult :=
  let errs := foldl (fun acc step => acc ++ check_module step) [] l in
  {| valid := is_empty errs; errors := errs |}.

(** [None] stands for a run on a document that passes the schema without
    having the shape the cast asserts. *)
Definition validateWorkflowComplete (workflow : json) (st : State)
    : option ValidationResult * State :=
  let (structureResult, st1) := validateWorkflowStructure workflow st in
  if negb (valid structureResult) then (Some structureResult, st1)
  else
    match as_Workflow workflow with
    | None => (None, st1)
    | Some w =>
        let (triggerErrors, st2) :=
          match trigger w with
          | Some t => let (triggerResult, st2) := validateTrigger t st1 in
                      (errors triggerResult, st2)
          | None => ([], st1)
          end in
        let allErrors := [] ++ triggerErrors in
        let moduleResult := validateModulePaths (steps (wf_config w)) in
        let allErrors := allErrors ++ errors moduleResult in
        let varResult := validateVariableReferences (steps (wf_config w)) in
        let allErrors := allErrors ++ errors varResult in
        let lastStep := last_step (steps (wf_config w)) in
        let outputResult := validateOutputDisplay (outputDisplay (wf_config w)) lastStep in
        let allErrors := allErrors ++ errors outputResult in
        (Some {| valid := is_empty allErrors; errors := allErrors |}, st2)
    end.

(** The diagnostics of a trigger, read off a run from the fresh state. *)
Definition trigger_errors (t : Trigger) : list ValidationError :=
  errors (fst (validateTrigger t fresh)).

(** What [allErrors] holds at the end for a document cast to [w]. *)
Definition all_errors (w : Workflow) : list ValidationError :=
  match trigger w with Some t => trigger_errors t | None => [] end
  ++ errors (validateModulePaths (steps (wf_config w)))
  ++ errors (validateVariableReferences (steps (wf_config w)))
  ++ errors (validateOutputDisplay (outputDisplay (wf_config w))
               (last_step (steps (wf_config w)))).

End Validator.

(** How many diagnostics of a list carry the keyword [kw]. *)
Definition count_keyword (kw : string) (l : list ValidationError) : nat :=
  length (filter (fun e => keyword e = kw) l).

(** ** A schema, a registry and documents to run the validator on *)

Module Sample.

(** What AJV reports for a [required] violation on the object [data] at
    [at_path]. *)
Definition required_error (at_path : string) (data : json) (field : string) : ErrorObject :=
  {| instancePath := at_path;
     e_keyword := "required";
     e_message := Some ("must have required property '" +:+ field +:+ "'");
     e_params :=
       {| missingProperty := Some field; params_type := None; allowedValues := None;
          pattern := None; limit := None; allowedValue := None |};
     e_data := Some data |}.

Definition type_error (at_path : string) (data : json) (ty : string) : ErrorObject :=
  {| instancePath := at_path;
     e_keyword := "type";
     e_message := Some ("must be " +:+ ty);
     e_params :=
       {| missingProperty := None; params_type := Some ty; allowedValues := None;
          pattern := None; limit := None; allowedValue := None |};
     e_data := Some data |}.

Definition missing (at_path : string) (data : json) (fields : list string)
    : list ErrorObject :=
  flat_map (fun f => match prop f data with
                     | None => [required_error at_path data f]
                     | Some _ => []
                     end) fields.

(** A validator returns [true] and leaves [errors] null when nothing is
    violated, and returns [false] and leaves the violations otherwise. *)
Definition outcome_of (errs : list ErrorObject) : Outcome :=
  {| ok := is_empty errs;
     reported := if is_empty errs then None else Some errs |}.

(** Modelled from the spec: the structural schema [workflowSchema] of
    [workflow-schema.ts], which is not among the sources.  It keeps the
    required fields the spec names ([version], [name], [description] and the
    step sequence, which the validator reads at [config.steps]) and the
    skeleton the validator casts a valid document to. *)
Definition workflowSchema (doc : json) : list ErrorObject :=
  let top := missing "" doc ["version"; "name"; "description"; "config"] in
  let cfg := match prop "config" doc with
             | Some c => missing "/config" c ["steps"]
             | None => []
             end in
  if is_empty (top ++ cfg) then
    match as_Workflow doc with
    | Some _ => []
    | None => [type_error "" doc "object"]
    end
  else top ++ cfg.

(** Modelled from the spec: the trigger sub-schema [cronTriggerSchema] of
    [workflow-schema.ts]; a cron trigger carries [schedule]. *)
Definition cronTriggerSchema (cfg : json) : list ErrorObject :=
  missing "" cfg ["schedule"].

(** Modelled from the spec: [chatTriggerSchema], a chat trigger carries
    [inputVariable]. *)
Definition chatTriggerSchema (cfg : json) : list ErrorObject :=
  missing "" cfg ["inputVariable"].

(** Modelled from the spec: [chatInputTriggerSchema], a chat-input trigger
    carries [fields]. *)
Definition chatInputTriggerSchema (cfg : json) : list ErrorObject :=
  missing "" cfg ["fields"].

Definition sem (v : Validator) (data : json) : Outcome :=
  outcome_of
    match v with
    | validateWorkflow => workflowSchema data
    | validateChatInputTrigger => chatInputTriggerSchema data
    | validateCronTrigger => cronTriggerSchema data
    | validateChatTrigger => chatTriggerSchema data
    end.

Definition fn (n : string) : FunctionInfo :=
  {| fn_name := n; description := ""; signature := "" |}.

(** Modelled from the spec: a capability catalog as [module-registry.ts],
    which is not among the sources, would return it: categories, their
    modules, their functions. *)
Definition registry : list Category :=
  [ {| cat_name := "utilities";
       modules :=
         [ {| mod_name := "array-utils"; functions := [fn "count"; fn "first"] |};
           {| mod_name := "datetime"; functions := [fn "now"] |} ] |};
    {| cat_name := "ai";
       modules := [ {| mod_name := "openai"; functions := [fn "generateText"] |} ] |} ].

Definition step_json (i m : string) (ins : list (string * json)) (out : option string) : json :=
  JObj ([("id", JStr i); ("module", JStr m); ("inputs", JObj ins)]
        ++ match out with Some o => [("outputAs", JStr o)] | None => [] end).

Definition document (extra : list (string * json)) (config_props : list (string * json)) : json :=
  JObj ([("version", JStr "1.0"); ("name", JStr "demo"); ("description", JStr "demo")]
        ++ extra ++ [("config", JObj config_props)]).

(** One step bound to an existing capability with [outputAs: r], a later
    step reading [{{r}}], no trigger and no output display. *)
Definition doc_valid : json :=
  document []
    [("steps", JArr
        [ step_json "s1" "ai.openai.generateText" [("prompt", JStr "hello {{user.name}}")] (Some "r");
          step_json "s2" "utilities.array-utils.first" [("items", JStr "{{r}}")] None ])].

(** A document whose [config] has no [steps]. *)
Definition doc_no_steps : json := document [] [].

(** A cron trigger without [schedule], and a step whose module is unknown. *)
Definition doc_bad_trigger : json :=
  document [("trigger", JObj [("type", JStr "cron"); ("config", JObj [])])]
    [("steps", JArr [ step_json "s1" "ai.openai.chat" [] None ])].

(** A table display without columns after a step that counts. *)
Definition doc_table_count : json :=
  document []
    [("steps", JArr [ step_json "s1" "utilities.array-utils.count" [] None ]);
     ("outputDisplay", JObj [("type", JStr "table")])].

Definition step_of (ins : list (string * json)) (out : option string) : Step :=
  {| id := "s"; module := "ai.openai.generateText"; inputs := JObj ins; outputAs := out |}.

(** Two steps: the first reads and binds [s], the second reads [s.a]. *)
Definition self_then_later : list Step :=
  [ step_of [("x", JStr "{{s}}")] (Some "s");
    step_of [("y", JStr "{{s.a}}")] None ].

End Sample.

(** ** Strings *)

Section StringFacts.

Local Arguments String.append !_ _ / : simpl nomatch.

Lemma append_nil_r (s : string) : s +:+ "" = s.
Proof. induction s as [|c s IH]; simpl; [reflexivity | now rewrite IH]. Qed.

Lemma append_assoc (a b c : string) : (a +:+ b) +:+ c = a +:+ b +:+ c.
Proof. induction a as [|x a IH]; simpl; [reflexivity | now rewrite IH]. Qed.

Lemma length_append (a b : string) :
  String.length (a +:+ b) = String.length a + String.length b.
Proof. induction a as [|x a IH]; simpl; [reflexivity | now rewrite IH]. Qed.

Lemma substring_prefix (a b : string) :
  String.substring 0 (String.length a) (a +:+ b) = a.
Proof.
  induction a as [|x a IH]; simpl.
  - destruct b; reflexivity.
  - now rewrite IH.
Qed.

End StringFacts.

(** ** The matcher against the language of a pattern *)

Module RegexFacts.

Local Arguments String.append !_ _ / : simpl nomatch.

Lemma consumed_app (m rest : string) : consumed (m +:+ rest) rest = m.
Proof.
  unfold consumed. rewrite length_append.
  replace (String.length m + String.length rest - String.length rest)
    with (String.length m) by lia.
  apply substring_prefix.
Qed.

Lemma flat_map_nil {A B : Type} (f : A -> list B) (l : list A) :
  (forall a, In a l -> f a = []) -> flat_map f l = [].
Proof.
  induction l as [|a l IH]; intros H; simpl; [reflexivity|].
  rewrite (H a) by now left. apply IH. intros b Hb. apply H. now right.
Qed.

Lemma shorter_spec (s1 s : string) :
  shorter s1 s = true <-> String.length s1 < String.length s.
Proof. unfold shorter. apply Nat.ltb_lt. Qed.

(** The iterations do not depend on the bound once it reaches the input
    length: every iteration consumes at least one character. *)
Lemma star_loop_enough (step : string -> caps -> list (string * caps)) :
  forall n n' s cs, String.length s <= n -> String.length s <= n' ->
    star_loop step n s cs = star_loop step n' s cs.
Proof.
  assert (Hnil : forall n s cs, String.length s = 0 ->
            star_loop step n s cs = [(s, cs)]).
  { intros [|n] s cs H0; simpl; [reflexivity|].
    rewrite flat_map_nil; [reflexivity|]. intros x _.
    destruct (shorter (fst x) s) eqn:E; [|reflexivity].
    apply shorter_spec in E. lia. }
  induction n as [|n IH]; intros n' s cs Hn Hn'.
  - rewrite !Hnil by lia. reflexivity.
  - destruct n' as [|n']; [rewrite !Hnil by lia; reflexivity|].
    simpl. f_equal. apply flat_map_ext. intros x.
    destruct (shorter (fst x) s) eqn:E; [|reflexivity].
    apply shorter_spec in E. apply IH; lia.
Qed.

(** The equation of a greedy [*]. *)
Lemma rmatch_Star (r : regex) (s : string) (cs : caps) :
  rmatch (Star r) s cs =
  flat_map (fun x => if shorter (fst x) s then rmatch (Star r) (fst x) (snd x) else [])
           (rmatch r s cs)
  ++ [(s, cs)].
Proof.
  simpl. destruct (String.length s) as [|n] eqn:En; simpl.
  - rewrite flat_map_nil; [reflexivity|]. intros x _.
    destruct (shorter (fst x) s) eqn:E; [|reflexivity].
    apply shorter_spec in E. lia.
  - f_equal. apply flat_map_ext. intros x.
    destruct (shorter (fst x) s) eqn:E; [|reflexivity].
    apply shorter_spec in E. apply star_loop_enough; lia.
Qed.

Lemma star_loop_sound (r : regex)
    (IH : forall s cs x, In x (rmatch r s cs) -> exists m, s = m +:+ fst x /\ lang r m) :
  forall n s cs x, In x (star_loop (rmatch r) n s cs) ->
    exists m, s = m +:+ fst x /\ lang (Star r) m.
Proof.
  induction n as [|n IHn]; intros s cs x Hx; simpl in Hx.
  - destruct Hx as [<-|[]]. exists "". split; [reflexivity | constructor].
  - apply in_app_iff in Hx. destruct Hx as [Hx|[<-|[]]].
    + apply in_flat_map in Hx. destruct Hx as (y & Hy & Hx).
      destruct (shorter (fst y) s); [|destruct Hx].
      apply IH in Hy. destruct Hy as (m1 & -> & L1).
      apply IHn in Hx. destruct Hx as (m2 & E2 & L2).
      exists (m1 +:+ m2). split; [|now constructor].
      rewrite E2 at 1. now rewrite append_assoc.
    + exists "". split; [reflexivity | constructor].
Qed.

(** Every way the matcher finds consumes a word of the language. *)
Lemma rmatch_sound (r : regex) :
  forall s cs x, In x (rmatch r s cs) -> exists m, s = m +:+ fst x /\ lang r m.
Proof.
  induction r as [|c|p|r1 IH1 r2 IH2|r IH|i r IH]; intros s cs x Hx.
  - destruct Hx as [<-|[]]. exists "". split; [reflexivity | constructor].
  - destruct s as [|c' s']; simpl in Hx; [destruct Hx|].
    destruct (Ascii.eqb_spec c' c) as [->|]; [|destruct Hx].
    destruct Hx as [<-|[]]. exists (String c ""). split; [reflexivity | constructor].
  - destruct s as [|c' s']; simpl in Hx; [destruct Hx|].
    destruct (p c') eqn:Hp; [|destruct Hx].
    destruct Hx as [<-|[]]. exists (String c' ""). split; [reflexivity | now constructor].
  - simpl in Hx. apply in_flat_map in Hx. destruct Hx as (y & Hy & Hx).
    apply IH1 in Hy. destruct Hy as (m1 & -> & L1).
    apply IH2 in Hx. destruct Hx as (m2 & E2 & L2).
    exists (m1 +:+ m2). split; [|now constructor].
    rewrite E2 at 1. now rewrite append_assoc.
  - simpl in Hx. eapply star_loop_sound; eauto.
  - simpl in Hx. apply in_map_iff in Hx. destruct Hx as (y & <- & Hy).
    apply IH in Hy. destruct Hy as (m & -> & L). exists m. split; [reflexivity | now constructor].
Qed.

Lemma match_here_sound (r : regex) (s rest : string) (cs : caps) :
  match_here r s = Some (rest, cs) -> exists m, s = m +:+ rest /\ lang r m.
Proof.
  unfold match_here. intros H.
  destruct (rmatch r s []) as [|x l] eqn:E; [discriminate|].
  injection H as ->. apply (rmatch_sound r s [] (rest, cs)). rewrite E. now left.
Qed.

Lemma match_here_consumed (r : regex) (s rest : string) (cs : caps) :
  match_here r s = Some (rest, cs) ->
  lang r (consumed s rest) /\ s = consumed s rest +:+ rest.
Proof.
  intros H. apply match_here_sound in H. destruct H as (m & -> & L).
  rewrite consumed_app. now split.
Qed.

(** A successful search splits the input around a word of the language. *)
Lemma search_sound (r : regex) :
  forall s m rest cs, search r s = Some (m, rest, cs) ->
    lang r m /\ exists pre, s = pre +:+ m +:+ rest.
Proof.
  induction s as [|c s IH]; intros m rest cs H; simpl in H.
  - destruct (match_here r "") as [[rest' cs']|] eqn:E; [|discriminate].
    injection H as <- <- <-. apply match_here_consumed in E. destruct E as (L & E).
    split; [assumption|]. exists "". exact E.
  - destruct (match_here r (String c s)) as [[rest' cs']|] eqn:E.
    + injection H as <- <- <-. apply match_here_consumed in E. destruct E as (L & E).
      split; [assumption|]. exists "". exact E.
    + apply IH in H. destruct H as (L & pre & ->). split; [assumption|].
      exists (String c pre). reflexivity.
Qed.

Lemma search_length (r : regex) (s m rest : string) (cs : caps) :
  search r s = Some (m, rest, cs) ->
  String.length m + String.length rest <= String.length s.
Proof.
  intros H. apply search_sound in H. destruct H as (_ & pre & ->).
  rewrite !length_append. lia.
Qed.

(** The scan does not depend on its fuel once it exceeds the input length. *)
Lemma match_all_fuel_enough (r : regex) :
  forall n n' s, String.length s < n -> String.length s < n' ->
    match_all_fuel n r s = match_all_fuel n' r s.
Proof.
  induction n as [|n IH]; intros n' s Hn Hn'; [lia|].
  destruct n' as [|n']; [lia|]. simpl.
  destruct (search r s) as [[[m rest] cs]|] eqn:E; [|reflexivity].
  apply search_length in E. f_equal.
  destruct m as [|c m]; [destruct rest as [|c rest]|]; simpl in E.
  - reflexivity.
  - apply IH; lia.
  - apply IH; lia.
Qed.

(** The loop [String.prototype.match] runs for a global pattern. *)
Lemma match_all_unfold (r : regex) (s : string) :
  match_all r s =
  match search r s with
  | None => []
  | Some (m, rest, _) =>
      m :: match m, rest with
           | EmptyString, EmptyString => []
           | EmptyString, String _ rest' => match_all r rest'
           | _, _ => match_all r rest
           end
  end.
Proof.
  unfold match_all at 1. simpl.
  destruct (search r s) as [[[m rest] cs]|] eqn:E; [|reflexivity].
  apply search_length in E. f_equal. unfold match_all.
  destruct m as [|c m]; [destruct rest as [|c rest]|]; simpl in E.
  - reflexivity.
  - apply match_all_fuel_enough; simpl; lia.
  - apply match_all_fuel_enough; simpl; lia.
Qed.

(** Every text a global match returns is a word of the language of the
    pattern and occurs in the input. *)
Lemma match_all_fuel_sound (r : regex) :
  forall n s ref, In ref (match_all_fuel n r s) ->
    lang r ref /\ exists pre post, s = pre +:+ ref +:+ post.
Proof.
  induction n as [|n IH]; intros s ref H; simpl in H; [destruct H|].
  destruct (search r s) as [[[m rest] cs]|] eqn:E; [|destruct H].
  apply search_sound in E. destruct E as (L & pre & ->).
  destruct H as [<-|H].
  - split; [assumption|]. now exists pre, rest.
  - assert (In ref (match_all_fuel n r rest) \/
            exists c rest', rest = String c rest' /\ In ref (match_all_fuel n r rest')) as [H'|H'].
    { destruct m as [|c m]; [destruct rest as [|c rest]|]; [destruct H | right; eauto | left; assumption]. }
    + apply IH in H'. destruct H' as (L' & pre' & post' & ->). split; [assumption|].
      exists (pre +:+ m +:+ pre'), post'. now rewrite !append_assoc.
    + destruct H' as (c & rest' & -> & H'). apply IH in H'.
      destruct H' as (L' & pre' & post' & ->). split; [assumption|].
      exists (pre +:+ m +:+ String c pre'), post'. now rewrite !append_assoc.
Qed.

Lemma match_all_sound (r : regex) (s ref : string) :
  In ref (match_all r s) -> lang r ref /\ exists pre post, s = pre +:+ ref +:+ post.
Proof. apply match_all_fuel_sound. Qed.

End RegexFacts.

(** ** The variable-reference walk *)

Module DataflowFacts.

Import RegexFacts.

Local Arguments String.append !_ _ / : simpl nomatch.

Lemma app_cancel_r (a b c : string) : a +:+ c = b +:+ c -> a = b.
Proof.
  revert b. induction a as [|x a IH]; intros [|y b] H; simpl in H.
  - reflexivity.
  - apply (f_equal String.length) in H. simpl in H. rewrite length_append in H. lia.
  - apply (f_equal String.length) in H. simpl in H. rewrite length_append in H. lia.
  - injection H as -> H. f_equal. now apply IH.
Qed.

Lemma undeclared_error_inj (k k' : nat) (v v' : string) :
  undeclared_error k v = undeclared_error k' v' -> k = k' /\ v = v'.
Proof.
  intros H. split.
  - apply (f_equal path) in H. simpl in H. injection H as H.
    apply app_cancel_r in H. now apply pretty_nat_inj in H.
  - apply (f_equal message) in H. simpl in H. now injection H.
Qed.

Lemma has_true (x : string) (s : gset string) : has x s = true <-> x ∈ s.
Proof. unfold has. apply bool_decide_eq_true. Qed.

Lemma has_false (x : string) (s : gset string) : has x s = false <-> x ∉ s.
Proof. unfold has. apply bool_decide_eq_false. Qed.

(** A pattern without groups leaves the captures as they are. *)
Lemma star_loop_caps (step : string -> caps -> list (string * caps))
    (IH : forall s cs x, In x (step s cs) -> snd x = cs) :
  forall n s cs x, In x (star_loop step n s cs) -> snd x = cs.
Proof.
  induction n as [|n IHn]; intros s cs x Hx; simpl in Hx.
  - now destruct Hx as [<-|[]].
  - apply in_app_iff in Hx. destruct Hx as [Hx|[<-|[]]]; [|reflexivity].
    apply in_flat_map in Hx. destruct Hx as (y & Hy & Hx).
    destruct (shorter (fst y) s); [|destruct Hx].
    apply IH in Hy. apply IHn in Hx. congruence.
Qed.

Lemma rmatch_no_groups (r : regex) :
  no_groups r -> forall s cs x, In x (rmatch r s cs) -> snd x = cs.
Proof.
  induction r as [|c|p|r1 IH1 r2 IH2|r IH|i r IH]; intros G s cs x Hx; simpl in *.
  - now destruct Hx as [<-|[]].
  - destruct s as [|c' s']; [destruct Hx|].
    destruct (Ascii.eqb c' c); [|destruct Hx]. now destruct Hx as [<-|[]].
  - destruct s as [|c' s']; [destruct Hx|].
    destruct (p c'); [|destruct Hx]. now destruct Hx as [<-|[]].
  - destruct G as [G1 G2]. apply in_flat_map in Hx. destruct Hx as (y & Hy & Hx).
    apply (IH1 G1) in Hy. apply (IH2 G2) in Hx. congruence.
  - eapply star_loop_caps; eauto.
  - destruct G.
Qed.

Lemma no_groups_Lit (t : string) : no_groups (Lit t).
Proof. induction t; simpl; auto. Qed.

Lemma lang_Plus_nonempty (r : regex) (m : string) :
  (forall t, lang r t -> t <> "") -> lang (Plus r) m -> m <> "".
Proof.
  intros Hr H. inversion H as [| | |r1 r2 s1 s2 L1 L2| | |]; subst.
  apply Hr in L1. destruct s1; [congruence | discriminate].
Qed.

Lemma lang_Cls_nonempty (p : ascii -> bool) (t : string) : lang (Cls p) t -> t <> "".
Proof. intros H. inversion H. discriminate. Qed.

(** Every match of [name_re] captures a non-empty run of word characters
    as its group 1. *)
Lemma name_re_caps (s : string) (x : string * caps) :
  In x (rmatch name_re s []) ->
  exists m, snd x = [(1, m)] /\ lang (Plus (Cls is_word)) m.
Proof.
  unfold name_re. intros Hx.
  change (rmatch (Seq ?a ?b) s []) with
    (flat_map (fun y => rmatch b (fst y) (snd y)) (rmatch a s [])) in Hx.
  apply in_flat_map in Hx. destruct Hx as (y & Hy & Hx).
  apply (rmatch_no_groups _ (no_groups_Lit _)) in Hy.
  change (rmatch (Grp ?i ?r) ?s ?cs) with
    (map (fun z => (fst z, (i, consumed s (fst z)) :: snd z)) (rmatch r s cs)) in Hx.
  apply in_map_iff in Hx. destruct Hx as (z & <- & Hz).
  pose proof (rmatch_no_groups (Plus (Cls is_word)) (conj I I) _ _ _ Hz) as Hc.
  apply rmatch_sound in Hz. destruct Hz as (m & E & L).
  exists m. unfold caps in *. simpl. rewrite Hc, Hy, E, consumed_app. now split.
Qed.

Lemma search_caps (r : regex) :
  forall s m rest cs, search r s = Some (m, rest, cs) ->
    exists s' x, In x (rmatch r s' []) /\ snd x = cs.
Proof.
  assert (Hh : forall s rest cs, match_here r s = Some (rest, cs) ->
            exists s' x, In x (rmatch r s' []) /\ snd x = cs).
  { unfold match_here. intros s rest cs H.
    destruct (rmatch r s []) as [|x l] eqn:E; [discriminate|]. injection H as ->.
    exists s, (rest, cs). rewrite E. split; [now left | reflexivity]. }
  induction s as [|c s IH]; intros m rest cs H; simpl in H.
  - destruct (match_here r "") as [[rest' cs']|] eqn:E; [|discriminate].
    injection H as <- <- <-. eauto.
  - destruct (match_here r (String c s)) as [[rest' cs']|] eqn:E.
    + injection H as <- <- <-. eauto.
    + eauto.
Qed.

(** The name a reference is checked under is a non-empty identifier. *)
Lemma varName_word (ref n : string) :
  match_group 1 name_re ref = Some n -> lang (Plus (Cls is_word)) n /\ truthy n = true.
Proof.
  unfold match_group. intros H.
  destruct (search name_re ref) as [[[m rest] cs]|] eqn:E; [|discriminate].
  apply search_caps in E. destruct E as (s' & x & Hx & <-).
  apply name_re_caps in Hx. destruct Hx as (m' & Hc & L). rewrite Hc in H.
  simpl in H. injection H as <-. split; [assumption|].
  apply (lang_Plus_nonempty _ _ (lang_Cls_nonempty _)) in L.
  unfold truthy. destruct (String.eqb_spec m' EmptyString); [contradiction | reflexivity].
Qed.

Lemma check_ref_In (D : gset string) (k : nat) (ref : string) (d : ValidationError) :
  In d (check_ref D k ref) <->
  exists v, match_group 1 name_re ref = Some v /\ (v ∉ D) /\ d = undeclared_error k v.
Proof.
  unfold check_ref. split.
  - destruct (match_group 1 name_re ref) as [v|] eqn:E; [|intros []].
    destruct (truthy v); simpl; [|intros []].
    destruct (has v D) eqn:Hh; simpl; [intros []|]. intros [<-|[]].
    exists v. apply has_false in Hh. auto.
  - intros (v & E & Hv & ->). rewrite E.
    apply varName_word in E. destruct E as [_ ->].
    apply has_false in Hv. rewrite Hv. now left.
Qed.

Lemma register_elem (step : Step) (D : gset string) (n : string) :
  n ∈ register step D <-> n ∈ D \/ (outputAs step = Some n /\ truthy n = true).
Proof.
  unfold register. destruct (outputAs step) as [v|]; [destruct (truthy v) eqn:T|].
  - rewrite elem_of_union, elem_of_singleton. split.
    + intros [->|H]; auto.
    + intros [H|[[= ->] _]]; auto.
  - split; [auto|]. intros [H|[[= ->] T']]; [assumption | congruence].
  - split; [auto|]. intros [H|[[=] _]]. assumption.
Qed.

Lemma register_mono (step : Step) (D : gset string) : D ⊆ register step D.
Proof. intros n H. apply register_elem. now left. Qed.

Lemma forEach_from_declared (n : string) :
  forall l i st,
    n ∈ declaredVars (forEach_from i l st) <->
    n ∈ declaredVars st \/
    exists j sj, l !! j = Some sj /\ outputAs sj = Some n /\ truthy n = true.
Proof.
  induction l as [|a l IH]; intros i st; simpl.
  - split; [auto|]. intros [H|(j & sj & H & _)]; [assumption | discriminate].
  - rewrite IH. simpl. rewrite register_elem. split.
    + intros [[H|H]|(j & sj & H)]; [now left | right; exists 0, a; now simpl |].
      right. exists (S j), sj. exact H.
    + intros [H|(j & sj & Hj & H)]; [now left; left|].
      destruct j as [|j]; simpl in Hj.
      * injection Hj as ->. left. now right.
      * right. exists j, sj. now split.
Qed.

Lemma forEach_from_errors (d : ValidationError) :
  forall l i st,
    In d (var_errors (forEach_from i l st)) <->
    In d (var_errors st) \/
    exists k step ref, l !! k = Some step /\ In ref (varRefs step) /\
      In d (check_ref (declaredVars (forEach_from i (take k l) st)) (i + k) ref).
Proof.
  induction l as [|a l IH]; intros i st; simpl.
  - split; [auto|]. intros [H|(k & step & ref & H & _)]; [assumption | discriminate].
  - rewrite IH. simpl. unfold step_errors. rewrite in_app_iff, in_flat_map. split.
    + intros [[H|(ref & Hr & H)]|(k & step & ref & Hk & Hr & H)].
      * now left.
      * right. exists 0, a, ref. simpl. rewrite Nat.add_0_r. auto.
      * right. exists (S k), step, ref. simpl.
        replace (i + S k) with (S (i + k)) by lia. auto.
    + intros [H|(k & step & ref & Hk & Hr & H)]; [now left; left|].
      destruct k as [|k]; simpl in Hk, H.
      * injection Hk as ->. rewrite Nat.add_0_r in H. left. right. eauto.
      * right. exists k, step, ref.
        replace (S (i + k)) with (i + S k) by lia. auto.
Qed.

(** The diagnostics of the pass: one for each reference, in some step, to a
    name that is not bound when the walk reaches that step. *)
Lemma validateVariableReferences_In (l : list Step) (d : ValidationError) :
  In d (errors (validateVariableReferences l)) <->
  exists k step v, l !! k = Some step /\ referenced step v /\
    (v ∉ declared_before l k) /\ d = undeclared_error k v.
Proof.
  unfold validateVariableReferences. simpl. rewrite forEach_from_errors. simpl. split.
  - intros [[]|(k & step & ref & Hk & Hr & H)].
    apply check_ref_In in H. destruct H as (v & E & Hv & ->).
    exists k, step, v. unfold referenced, declared_before. eauto 10.
  - intros (k & step & v & Hk & (ref & Hr & E) & Hv & ->). right.
    exists k, step, ref. split; [assumption|]. split; [assumption|].
    apply check_ref_In. exists v. auto.
Qed.

(** The bound names at step [k]: the built-ins and the non-empty output
    names of the steps before [k]. *)
Lemma declared_before_elem (l : list Step) (k : nat) (n : string) :
  n ∈ declared_before l k <->
  n ∈ builtins \/
  exists j sj, j < k /\ l !! j = Some sj /\ outputAs sj = Some n /\ truthy n = true.
Proof.
  unfold declared_before. rewrite forEach_from_declared. simpl. split.
  - intros [H|(j & sj & Hj & H)]; [now left|]. right.
    apply lookup_take_Some in Hj. destruct Hj as [Hj Hlt]. exists j, sj. auto.
  - intros [H|(j & sj & Hlt & Hj & H)]; [now left|]. right.
    exists j, sj. split; [|assumption]. apply lookup_take_Some. auto.
Qed.

Lemma declared_before_mono (l : list Step) (i j : nat) :
  i <= j -> declared_before l i ⊆ declared_before l j.
Proof.
  intros Hij n. rewrite !declared_before_elem.
  intros [H|(a & sa & Ha & H)]; [now left|]. right. exists a, sa. split; [lia | assumption].
Qed.

End DataflowFacts.

(** ** The grammar of references *)

Module ReferenceGrammar.

Import RegexFacts DataflowFacts.

Local Arguments String.append !_ _ / : simpl nomatch.

Lemma lang_Star_Cls (p : ascii -> bool) (s : string) :
  lang (Star (Cls p)) s -> all_chars p s = true.
Proof.
  intros H. remember (Star (Cls p)) as r eqn:Er.
  induction H as [| | | |r0|r0 s1 s2 H1 _ H2 IH2|]; try discriminate.
  - reflexivity.
  - injection Er as ->. inversion H1 as [| |p' c Hc| | | |]; subst.
    simpl. rewrite Hc. now apply IH2.
Qed.

(** [\w+] and [\d+]: the non-empty strings over the class. *)
Lemma lang_Plus_Cls (p : ascii -> bool) (s : string) :
  lang (Plus (Cls p)) s <-> s <> "" /\ all_chars p s = true.
Proof.
  split.
  - intros H. inversion H as [| | |r1 r2 s1 s2 H1 H2| | |]; subst.
    inversion H1 as [| |p' c Hc| | | |]; subst. apply lang_Star_Cls in H2.
    simpl. rewrite Hc, H2. split; [discriminate | reflexivity].
  - intros [Hne Hall]. destruct s as [|c s]; [contradiction|]. clear Hne.
    simpl in Hall. apply andb_true_iff in Hall. destruct Hall as [Hc Hall].
    change (String c s) with (String c "" +:+ s).
    constructor; [now constructor|].
    induction s as [|c' s IH]; [constructor|].
    simpl in Hall. apply andb_true_iff in Hall. destruct Hall as [Hc' Hall].
    change (String c' s) with (String c' "" +:+ s).
    constructor; [now constructor | now apply IH].
Qed.

(** A repetition of [c r] is empty or starts with [c]. *)
Lemma lang_Star_Chr_head (c : ascii) (r : regex) (s : string) :
  lang (Star (Seq (Chr c) r)) s -> s = "" \/ exists s', s = String c s'.
Proof.
  intros H. remember (Star (Seq (Chr c) r)) as r0 eqn:Er.
  induction H as [| | | |r1|r1 s1 s2 H1 _ H2 _|]; try discriminate.
  - now left.
  - injection Er as ->. right.
    inversion H1 as [| | |ra rb sa sb Ha Hb| | |]; subst.
    inversion Ha; subst. simpl. eauto.
Qed.

(** The words of [ref_re]: an identifier between the markers, followed by
    dotted identifiers and then by bracketed indices. *)
Lemma ref_re_shape (ref : string) :
  lang ref_re ref <->
  exists name props idx,
    ref = "{{" +:+ name +:+ props +:+ idx +:+ "}}"
    /\ name <> "" /\ all_chars is_word name = true
    /\ lang (Star (Seq (Chr ".") (Plus (Cls is_word)))) props
    /\ lang (Star (Seq (Chr "[") (Seq (Plus (Cls is_digit)) (Chr "]")))) idx.
Proof.
  unfold ref_re. split.
  - intros H.
    inversion H as [| | |r1 r2 s1 s2 H1 H2| | |]; subst; clear H.
    inversion H2 as [| | |r1 r2 s3 s4 H3 H4| | |]; subst; clear H2.
    inversion H4 as [| | |r1 r2 s5 s6 H5 H6| | |]; subst; clear H4.
    inversion H6 as [| | |r1 r2 s7 s8 H7 H8| | |]; subst; clear H6.
    inversion H3 as [| | | | | |i r s H3']; subst; clear H3.
    apply lang_Plus_Cls in H3'. destruct H3' as [Hne Hall].
    assert (E1 : s1 = "{{").
    { simpl in H1. inversion H1 as [| | |ra rb sa sb Ha Hb| | |]; subst.
      inversion Ha; subst. inversion Hb as [| | |rc rd sc sd Hc Hd| | |]; subst.
      inversion Hc; subst. inversion Hd; subst. reflexivity. }
    assert (E8 : s8 = "}}").
    { simpl in H8. inversion H8 as [| | |ra rb sa sb Ha Hb| | |]; subst.
      inversion Ha; subst. inversion Hb as [| | |rc rd sc sd Hc Hd| | |]; subst.
      inversion Hc; subst. inversion Hd; subst. reflexivity. }
    subst. exists s3, s5, s7. auto.
  - intros (name & props & idx & -> & Hne & Hall & Hp & Hi).
    change ("{{" +:+ name +:+ props +:+ idx +:+ "}}")
      with (String.append "{{" (name +:+ props +:+ idx +:+ "}}")).
    constructor.
    + change "{{" with (String "{" "" +:+ String "{" "" +:+ "").
      simpl Lit. repeat constructor.
    + constructor; [constructor; now apply lang_Plus_Cls|].
      constructor; [assumption|]. constructor; [assumption|].
      change "}}" with (String "}" "" +:+ String "}" "" +:+ "").
      simpl Lit. repeat constructor.
Qed.

Lemma rmatch_Cls_cons (p : ascii -> bool) (c : ascii) (s : string) (cs : caps) :
  rmatch (Cls p) (String c s) cs = if p c then [(s, cs)] else [].
Proof. reflexivity. Qed.

Lemma rmatch_Seq (r1 r2 : regex) (s : string) (cs : caps) :
  rmatch (Seq r1 r2) s cs = flat_map (fun y => rmatch r2 (fst y) (snd y)) (rmatch r1 s cs).
Proof. reflexivity. Qed.

Lemma rmatch_Grp (i : nat) (r : regex) (s : string) (cs : caps) :
  rmatch (Grp i r) s cs =
  map (fun z => (fst z, (i, consumed s (fst z)) :: snd z)) (rmatch r s cs).
Proof. reflexivity. Qed.

(** A greedy [p*] takes the whole run in front of a character outside the
    class. *)
Lemma rmatch_Star_Cls_greedy (p : ascii -> bool) (rest : string) (cs : caps) :
  stops p rest ->
  forall name, all_chars p name = true ->
    head (rmatch (Star (Cls p)) (name +:+ rest) cs) = Some (rest, cs).
Proof.
  intros Hrest. induction name as [|c name IH]; intros Hall.
  - rewrite rmatch_Star. simpl String.append.
    assert (E : rmatch (Cls p) rest cs = []).
    { destruct rest as [|c rest]; [reflexivity|]. simpl in *. now rewrite Hrest. }
    rewrite E. reflexivity.
  - simpl in Hall. apply andb_true_iff in Hall. destruct Hall as [Hc Hall].
    rewrite rmatch_Star. simpl String.append. rewrite rmatch_Cls_cons, Hc.
    cbn [flat_map fst snd].
    assert (Hs : shorter (name +:+ rest) (String c (name +:+ rest)) = true).
    { apply shorter_spec. simpl. lia. }
    rewrite Hs. specialize (IH Hall).
    destruct (rmatch (Star (Cls p)) (name +:+ rest) cs) as [|x l]; [discriminate|].
    exact IH.
Qed.

Lemma rmatch_Plus_Cls_greedy (p : ascii -> bool) (rest : string) (cs : caps) (name : string) :
  stops p rest -> name <> "" -> all_chars p name = true ->
  head (rmatch (Plus (Cls p)) (name +:+ rest) cs) = Some (rest, cs).
Proof.
  intros Hrest Hne Hall. destruct name as [|c name]; [contradiction|].
  simpl in Hall. apply andb_true_iff in Hall. destruct Hall as [Hc Hall].
  unfold Plus. simpl String.append.
  rewrite rmatch_Seq, rmatch_Cls_cons, Hc. cbn [flat_map fst snd].
  rewrite List.app_nil_r. now apply rmatch_Star_Cls_greedy.
Qed.

(** On a text that opens like a reference, [name_re] matches at once and
    captures the whole identifier. *)
Lemma match_group_name (name rest : string) :
  stops is_word rest -> name <> "" -> all_chars is_word name = true ->
  match_group 1 name_re ("{{" +:+ name +:+ rest) = Some name.
Proof.
  intros Hrest Hne Hall.
  assert (Hh : match_here name_re ("{{" +:+ name +:+ rest) = Some (rest, [(1, name)])).
  { unfold match_here, name_re. rewrite rmatch_Seq.
    change (rmatch (Lit "{{") ("{{" +:+ name +:+ rest) [])
      with [(name +:+ rest, @nil (nat * string))].
    cbn [flat_map fst snd]. rewrite List.app_nil_r, rmatch_Grp.
    pose proof (rmatch_Plus_Cls_greedy is_word rest [] name Hrest Hne Hall) as H.
    destruct (rmatch (Plus (Cls is_word)) (name +:+ rest) []) as [|x l]; [discriminate|].
    injection H as ->. simpl. now rewrite consumed_app. }
  unfold match_group.
  assert (Hs : search name_re ("{{" +:+ name +:+ rest)
               = Some (consumed ("{{" +:+ name +:+ rest) rest, rest, [(1, name)])).
  { simpl String.append. cbn [search]. simpl String.append in Hh. now rewrite Hh. }
  rewrite Hs. reflexivity.
Qed.

(** Every word of [ref_re] is checked under its leading identifier. *)
Lemma ref_re_name (ref : string) :
  lang ref_re ref ->
  exists name props idx,
    ref = "{{" +:+ name +:+ props +:+ idx +:+ "}}"
    /\ name <> "" /\ all_chars is_word name = true
    /\ lang (Star (Seq (Chr ".") (Plus (Cls is_word)))) props
    /\ lang (Star (Seq (Chr "[") (Seq (Plus (Cls is_digit)) (Chr "]")))) idx
    /\ match_group 1 name_re ref = Some name.
Proof.
  intros H. apply ref_re_shape in H.
  destruct H as (name & props & idx & -> & Hne & Hall & Hp & Hi).
  exists name, props, idx. split; [reflexivity|].
  split; [assumption|]. split; [assumption|]. split; [assumption|]. split; [assumption|].
  apply match_group_name; [|assumption|assumption].
  apply lang_Star_Chr_head in Hp. apply lang_Star_Chr_head in Hi.
  destruct Hp as [->|(p' & ->)]; [|reflexivity].
  destruct Hi as [->|(i' & ->)]; reflexivity.
Qed.

End ReferenceGrammar.

(** ** The scan finds every reference *)

Module ScanFacts.

Import RegexFacts DataflowFacts ReferenceGrammar.

Local Arguments String.append !_ _ / : simpl nomatch.

Lemma head_flat_map {A B : Type} (f : A -> list B) (l : list A) (x : A) (y : B) :
  head l = Some x -> head (f x) = Some y -> head (flat_map f l) = Some y.
Proof.
  destruct l as [|a l]; [discriminate|]. intros [= ->] Hy. simpl.
  destruct (f x) as [|b l']; [discriminate|]. exact Hy.
Qed.

Lemma head_app_l {A : Type} (l k : list A) (x : A) :
  head l = Some x -> head (l ++ k) = Some x.
Proof. destruct l; [discriminate | trivial]. Qed.

Lemma rmatch_Chr_cons (c c' : ascii) (s : string) (cs : caps) :
  rmatch (Chr c) (String c' s) cs = if Ascii.eqb c' c then [(s, cs)] else [].
Proof. reflexivity. Qed.

(** A greedy repetition of [c r] runs to the end of a word of its language
    when what follows does not start with [c] and each [r] is matched
    whole. *)
Lemma rmatch_Star_Chr_greedy (c : ascii) (r : regex) (rest : string) (cs : caps) :
  stops (Ascii.eqb c) rest ->
  (forall w tail, lang r w -> (tail = rest \/ exists t, tail = String c t) ->
     head (rmatch r (w +:+ tail) cs) = Some (tail, cs)) ->
  forall word, lang (Star (Seq (Chr c) r)) word ->
    head (rmatch (Star (Seq (Chr c) r)) (word +:+ rest) cs) = Some (rest, cs).
Proof.
  intros Hrest Hr word H. remember (Star (Seq (Chr c) r)) as r0 eqn:Er.
  induction H as [| | | |r1|r1 s1 s2 H1 _ H2 IH2|]; try discriminate.
  - injection Er as ->. rewrite rmatch_Star.
    assert (E : rmatch (Seq (Chr c) r) ("" +:+ rest) cs = []).
    { rewrite rmatch_Seq. destruct rest as [|c' rest]; [reflexivity|].
      simpl String.append. rewrite rmatch_Chr_cons. simpl in Hrest.
      rewrite Ascii.eqb_sym, Hrest. reflexivity. }
    rewrite E. reflexivity.
  - specialize (IH2 Er). injection Er as ->.
    inversion H1 as [| | |ra rb sa sb Ha Hb| | |]; subst. inversion Ha; subst.
    rewrite rmatch_Star.
    assert (Htail : s2 +:+ rest = rest \/ exists t, s2 +:+ rest = String c t).
    { apply lang_Star_Chr_head in H2. destruct H2 as [->|(t & ->)]; [now left|].
      right. simpl. eauto. }
    assert (E : head (rmatch (Seq (Chr c) r) (((String c "" +:+ sb) +:+ s2) +:+ rest) cs)
                = Some (s2 +:+ rest, cs)).
    { rewrite rmatch_Seq. simpl String.append. rewrite rmatch_Chr_cons, Ascii.eqb_refl.
      cbn [flat_map fst snd]. rewrite List.app_nil_r, append_assoc.
      apply Hr; assumption. }
    apply head_app_l. eapply head_flat_map; [exact E|]. cbn [fst snd].
    assert (Hs : shorter (s2 +:+ rest) (((String c "" +:+ sb) +:+ s2) +:+ rest) = true).
    { apply shorter_spec. simpl. rewrite !length_append. lia. }
    rewrite Hs. exact IH2.
Qed.

Lemma head_map {A B : Type} (f : A -> B) (l : list A) (x : A) :
  head l = Some x -> head (map f l) = Some (f x).
Proof. destruct l; [discriminate|]. now intros [= ->]. Qed.

Lemma rmatch_Lit_braces (open_or_close : ascii) (s : string) (cs : caps) :
  rmatch (Lit (String open_or_close (String open_or_close "")))
         (String open_or_close (String open_or_close s)) cs = [(s, cs)].
Proof.
  cbn [Lit]. rewrite rmatch_Seq, rmatch_Chr_cons, Ascii.eqb_refl. cbn [flat_map fst snd].
  rewrite rmatch_Seq, rmatch_Chr_cons, Ascii.eqb_refl. reflexivity.
Qed.

(** At the start of a word of [ref_re] the engine matches exactly that
    word, whatever follows it. *)
Lemma match_here_ref (ref post : string) :
  lang ref_re ref -> exists cs, match_here ref_re (ref +:+ post) = Some (post, cs).
Proof.
  intros H. apply ref_re_shape in H.
  destruct H as (name & props & idx & -> & Hne & Hall & Hp & Hi).
  set (X3 := "}}" +:+ post).
  set (X2 := idx +:+ X3).
  set (X1 := props +:+ X2).
  assert (E : ("{{" +:+ name +:+ props +:+ idx +:+ "}}") +:+ post
              = String "{" (String "{" (name +:+ X1))).
  { unfold X1, X2, X3. simpl. now rewrite !append_assoc. }
  rewrite E. clear E.
  assert (S2 : stops (Ascii.eqb ".") X2 /\ stops is_word X2).
  { unfold X2. apply lang_Star_Chr_head in Hi. destruct Hi as [->|(t & ->)]; now split. }
  assert (S1 : stops is_word X1).
  { unfold X1. pose proof Hp as Hp'. apply lang_Star_Chr_head in Hp'.
    destruct Hp' as [->|(t & ->)]; [apply S2 | reflexivity]. }
  exists [(1, name)]. unfold match_here, ref_re.
  rewrite rmatch_Seq, rmatch_Lit_braces. cbn [flat_map fst snd]. rewrite List.app_nil_r.
  rewrite rmatch_Seq.
  eapply head_flat_map.
  { rewrite rmatch_Grp. apply head_map.
    apply (rmatch_Plus_Cls_greedy is_word X1 [] name S1 Hne Hall). }
  cbn [fst snd]. rewrite consumed_app, rmatch_Seq.
  eapply head_flat_map.
  { unfold X1. apply rmatch_Star_Chr_greedy; [apply S2| |exact Hp].
    intros w tail Hw Htail. apply lang_Plus_Cls in Hw. destruct Hw as [Hwn Hwa].
    apply rmatch_Plus_Cls_greedy; [|assumption|assumption].
    destruct Htail as [->|(t & ->)]; [apply S2 | reflexivity]. }
  cbn [fst snd]. rewrite rmatch_Seq.
  eapply head_flat_map.
  { unfold X2. apply rmatch_Star_Chr_greedy; [reflexivity| |exact Hi].
    intros w tail Hw Htail.
    inversion Hw as [| | |ra rb d sb Hd Hb| | |]; subst. inversion Hb; subst.
    apply lang_Plus_Cls in Hd. destruct Hd as [Hdn Hda].
    rewrite rmatch_Seq, append_assoc.
    eapply head_flat_map.
    - apply rmatch_Plus_Cls_greedy; [reflexivity|assumption|assumption].
    - cbn [fst snd]. simpl String.append. rewrite rmatch_Chr_cons. reflexivity. }
  cbn [fst snd]. unfold X3. simpl String.append. now rewrite rmatch_Lit_braces.
Qed.

Lemma append_eq_split (a b c d : string) :
  a +:+ b = c +:+ d ->
  (exists e, c = a +:+ e /\ b = e +:+ d) \/ (exists e, a = c +:+ e /\ d = e +:+ b).
Proof.
  revert c. induction a as [|x a IH]; intros c H.
  - left. exists c. now split.
  - destruct c as [|y c].
    + right. exists (String x a). now split.
    + simpl in H. injection H as -> H. apply IH in H.
      destruct H as [(e & -> & ->)|(e & -> & ->)]; [left | right]; exists e; now split.
Qed.

Lemma all_chars_app (p : ascii -> bool) (a b : string) :
  all_chars p (a +:+ b) = all_chars p a && all_chars p b.
Proof.
  induction a as [|x a IH]; simpl; [reflexivity|]. rewrite IH. now rewrite andb_assoc.
Qed.

Lemma lang_consumes_only (q : ascii -> bool) (r : regex) (s : string) :
  lang r s -> consumes_only q r -> all_chars q s = true.
Proof.
  induction 1 as [|c|p c Hc|r1 r2 s1 s2 _ IH1 _ IH2|r|r s1 s2 _ IH1 _ IH2|i r s _ IH];
    simpl; intros Hq.
  - reflexivity.
  - now rewrite Hq.
  - now rewrite (Hq c Hc).
  - destruct Hq as [Hq1 Hq2]. now rewrite all_chars_app, IH1, IH2.
  - reflexivity.
  - now rewrite all_chars_app, IH1, IH2.
  - now apply IH.
Qed.

(** A reference is the opening marker followed by a text that starts with
    a word character and holds no opening brace. *)
Lemma ref_re_body (m : string) :
  lang ref_re m ->
  exists w body, m = String "{" (String "{" (String w body))
    /\ is_word w = true /\ all_chars not_open (String w body) = true.
Proof.
  intros H. apply ref_re_shape in H.
  destruct H as (name & props & idx & -> & Hne & Hall & Hp & Hi).
  destruct name as [|w name]; [contradiction|].
  exists w, (name +:+ props +:+ idx +:+ "}}"). split; [reflexivity|].
  pose proof Hall as Hall'. simpl in Hall'. apply andb_true_iff in Hall'.
  split; [apply Hall'|].
  assert (Hw : forall c, is_word c = true -> not_open c = true).
  { intros c Hc. unfold not_open. destruct (Ascii.eqb_spec c "{"); [subst; discriminate | reflexivity]. }
  assert (Hd : forall c, is_digit c = true -> not_open c = true).
  { intros c Hc. unfold not_open. destruct (Ascii.eqb_spec c "{"); [subst; discriminate | reflexivity]. }
  change (String w (name +:+ props +:+ idx +:+ "}}"))
    with (String w name +:+ props +:+ idx +:+ "}}").
  rewrite !all_chars_app.
  rewrite (lang_consumes_only not_open _ _ Hp), (lang_consumes_only not_open _ _ Hi).
  - rewrite !andb_true_r.
    clear -Hall Hw. induction (String w name) as [|c s IH]; [reflexivity|].
    simpl in *. apply andb_true_iff in Hall. destruct Hall as [Hc Hs].
    now rewrite (Hw c Hc), IH.
  - simpl. repeat split; try reflexivity; assumption.
  - simpl. repeat split; try reflexivity; assumption.
Qed.

Lemma search_unfold (r : regex) (s : string) :
  search r s =
  match match_here r s with
  | Some (rest, cs) => Some (consumed s rest, rest, cs)
  | None => match s with
            | EmptyString => None
            | String _ s' => search r s'
            end
  end.
Proof. destruct s; reflexivity. Qed.

(** The search stops at the leftmost position where an attempt succeeds. *)
Lemma search_complete (r : regex) (t : string) :
  match_here r t <> None ->
  forall pre, exists pre' t' rest' cs',
    pre +:+ t = pre' +:+ t'
    /\ String.length pre' <= String.length pre
    /\ match_here r t' = Some (rest', cs')
    /\ search r (pre +:+ t) = Some (consumed t' rest', rest', cs').
Proof.
  intros Ht. induction pre as [|c pre IH].
  - destruct (match_here r t) as [[rest cs]|] eqn:E; [|contradiction].
    exists "", t, rest, cs. simpl. rewrite search_unfold, E. auto.
  - destruct (match_here r (String c pre +:+ t)) as [[rest cs]|] eqn:E.
    + exists "", (String c pre +:+ t), rest, cs. rewrite search_unfold, E.
      simpl. repeat split; lia.
    + destruct IH as (pre' & t' & rest' & cs' & E1 & Hl & Hm & Hs).
      exists (String c pre'), t', rest', cs'. rewrite search_unfold, E.
      simpl. rewrite <- E1. repeat split; [lia | assumption | assumption].
Qed.

(** Two references cannot overlap: inside a reference there is no place
    where another one could start. *)
Lemma ref_re_no_overlap (m e e2 ref tail rest' : string) :
  lang ref_re m -> lang ref_re ref ->
  m = e +:+ e2 -> e <> "" -> e2 <> "" ->
  ref +:+ tail = e2 +:+ rest' -> False.
Proof.
  intros Lm Lr Em He He2 E.
  destruct (ref_re_body m Lm) as (w & body & -> & Hw & Hbody).
  destruct (ref_re_body ref Lr) as (w' & body' & -> & _ & _).
  destruct e as [|x e']; [contradiction|].
  destruct e2 as [|y e2']; [contradiction|].
  simpl in E. injection E as <- E.
  simpl in Em. injection Em as <- Em.
  destruct e' as [|z e'']; simpl in Em.
  - injection Em as <-. simpl in E. injection E as <- _. discriminate Hw.
  - injection Em as <- Em. rewrite Em, all_chars_app in Hbody.
    simpl in Hbody. now rewrite andb_false_r in Hbody.
Qed.

Lemma append_length_nil (a e : string) :
  String.length (a +:+ e) <= String.length a -> e = "".
Proof.
  rewrite length_append. destruct e; [reflexivity | simpl; lia].
Qed.

(** Every occurrence of a reference in the input is among the matches. *)
Lemma match_all_fuel_complete :
  forall n s, String.length s < n ->
  forall pre ref post, s = pre +:+ ref +:+ post -> lang ref_re ref ->
    In ref (match_all_fuel n ref_re s).
Proof.
  induction n as [|n IH]; intros s Hn pre ref post Hs Lr; [lia|].
  destruct (match_here_ref ref post Lr) as (cs & Hm).
  assert (Hsome : match_here ref_re (ref +:+ post) <> None) by (rewrite Hm; discriminate).
  destruct (search_complete ref_re (ref +:+ post) Hsome pre)
    as (pre' & t' & rest' & cs' & E1 & Hlen & Hm' & Hsearch).
  destruct (match_here_consumed _ _ _ _ Hm') as [Lm Et'].
  cbn [match_all_fuel]. rewrite Hs, Hsearch.
  remember (consumed t' rest') as m eqn:Edef.
  destruct (ref_re_body m Lm) as (w & body & Em & _ & _).
  assert (Hlen_m : String.length rest' < n).
  { rewrite Hs, E1, Et', !length_append in Hn. rewrite Em in Hn. simpl in Hn. lia. }
  assert (Hcont : In ref (m :: match_all_fuel n ref_re rest') ->
                  In ref (m :: match m, rest' with
                               | EmptyString, EmptyString => []
                               | EmptyString, String _ rest'' => match_all_fuel n ref_re rest''
                               | _, _ => match_all_fuel n ref_re rest'
                               end)).
  { rewrite Em. trivial. }
  apply Hcont. clear Hcont.
  assert (Hsame : t' = ref +:+ post -> In ref (m :: match_all_fuel n ref_re rest')).
  { intros ->. rewrite Hm in Hm'. injection Hm' as <- _.
    rewrite consumed_app in Edef. subst m. now left. }
  apply append_eq_split in E1.
  destruct E1 as [(e & -> & E)|(e & -> & E)].
  - apply append_length_nil in Hlen. subst e. apply Hsame. now rewrite E.
  - destruct e as [|x e']; [now apply Hsame|].
    rewrite Et' in E. apply append_eq_split in E.
    destruct E as [(e2 & E & ->)|(e2 & E & E')].
    + right. now apply (IH _ Hlen_m e2 ref post).
    + destruct e2 as [|y e2'].
      * simpl in E'. right. apply (IH _ Hlen_m "" ref post); [|assumption].
        now rewrite <- E'.
      * exfalso. apply (ref_re_no_overlap m (String x e') (String y e2') ref post rest' Lm Lr);
          [assumption | discriminate | discriminate | assumption].
Qed.

(** The matches of [ref_re] in a text are exactly the words of its
    language that occur in the text. *)
Theorem varRefs_exact (s ref : string) :
  In ref (match_all ref_re s) <->
  lang ref_re ref /\ exists pre post, s = pre +:+ ref +:+ post.
Proof.
  split; [apply match_all_sound|].
  intros (L & pre & post & E). unfold match_all.
  apply (match_all_fuel_complete _ s (Nat.lt_succ_diag_r _) pre ref post E L).
Qed.

(** The names a step refers to, read off its serialized inputs: [n] is
    referenced when the serialization holds [{{n]...[}}] with dotted
    identifiers and then bracketed indices after [n]. *)
Theorem referenced_spec (step : Step) (n : string) :
  referenced step n <->
  exists props idx pre post,
    JSON_stringify (inputs step)
      = pre +:+ ("{{" +:+ n +:+ props +:+ idx +:+ "}}") +:+ post
    /\ n <> "" /\ all_chars is_word n = true
    /\ lang (Star (Seq (Chr ".") (Plus (Cls is_word)))) props
    /\ lang (Star (Seq (Chr "[") (Seq (Plus (Cls is_digit)) (Chr "]")))) idx.
Proof.
  unfold referenced, varRefs. split.
  - intros (ref & Hin & Hn). apply varRefs_exact in Hin.
    destruct Hin as (L & pre & post & E).
    apply ref_re_name in L.
    destruct L as (name & props & idx & -> & Hne & Hall & Hp & Hi & Hg).
    rewrite Hg in Hn. injection Hn as ->. exists props, idx, pre, post. auto.
  - intros (props & idx & pre & post & E & Hne & Hall & Hp & Hi).
    assert (L : lang ref_re ("{{" +:+ n +:+ props +:+ idx +:+ "}}")).
    { apply ref_re_shape. exists n, props, idx. auto. }
    exists ("{{" +:+ n +:+ props +:+ idx +:+ "}}"). split.
    + apply varRefs_exact. split; [assumption|]. now exists pre, post.
    + apply match_group_name; [|assumption|assumption].
      apply lang_Star_Chr_head in Hp. apply lang_Star_Chr_head in Hi.
      destruct Hp as [->|(p' & ->)]; [|reflexivity].
      destruct Hi as [->|(i' & ->)]; reflexivity.
Qed.

Lemma concat_holds {sep x : string} {l : list string} :
  In x l -> exists pre post, String.concat sep l = pre +:+ x +:+ post.
Proof.
  induction l as [|a l IH]; intros Hin; [destruct Hin|].
  destruct Hin as [->|Hin].
  - destruct l as [|b l].
    + exists "", "". simpl. now rewrite append_nil_r.
    + exists "", (sep +:+ String.concat sep (b :: l)). reflexivity.
  - destruct (IH Hin) as (pre & post & E). destruct l as [|b l]; [destruct Hin|].
    exists (a +:+ sep +:+ pre), post.
    change (String.concat sep (a :: b :: l)) with (a +:+ sep +:+ String.concat sep (b :: l)).
    now rewrite E, !append_assoc.
Qed.

Lemma quote_body_app (a b : string) :
  quote_body (a +:+ b) = quote_body a +:+ quote_body b.
Proof.
  induction a as [|c a IH]; simpl; [reflexivity|]. now rewrite IH, append_assoc.
Qed.

Lemma quote_body_plain (s : string) : all_chars plain s = true -> quote_body s = s.
Proof.
  induction s as [|c s IH]; simpl; [reflexivity|].
  intros H. apply andb_true_iff in H. destruct H as [Hc Hs]. rewrite (IH Hs).
  unfold plain in Hc. destruct (quote_char c) as [|c' [|c'' q]]; try discriminate.
  apply Ascii.eqb_eq in Hc. now subst c'.
Qed.

Lemma is_word_plain (c : ascii) : is_word c = true -> plain c = true.
Proof.
  destruct c as [[] [] [] [] [] [] [] []]; vm_compute; intros H; congruence.
Qed.

Lemma is_digit_plain (c : ascii) : is_digit c = true -> plain c = true.
Proof.
  destruct c as [[] [] [] [] [] [] [] []]; vm_compute; intros H; congruence.
Qed.

Lemma ref_re_plain (ref : string) : lang ref_re ref -> all_chars plain ref = true.
Proof.
  intros L. apply (lang_consumes_only plain _ _ L). simpl.
  repeat split; try reflexivity; first [exact is_word_plain | exact is_digit_plain].
Qed.

(** A reference written inside a string value of the inputs is found:
    serialization leaves its characters as they are. *)
Theorem string_input_reference (props : list (string * json)) (k a ref b : string)
    (i m : string) (out : option string) :
  In (k, JStr (a +:+ ref +:+ b)) props ->
  lang ref_re ref ->
  In ref (varRefs {| id := i; module := m; inputs := JObj props; outputAs := out |}).
Proof.
  intros Hin L. unfold varRefs. cbn [inputs]. apply varRefs_exact. split; [assumption|].
  cbn [JSON_stringify].
  set (f := fun kv : string * json => quote (fst kv) +:+ ":" +:+ JSON_stringify (snd kv)).
  assert (Hf : In (f (k, JStr (a +:+ ref +:+ b))) (map f props)) by now apply in_map.
  destruct (@concat_holds "," _ _ Hf) as (pre & post & E).
  unfold join. rewrite E. unfold f. cbn [fst snd JSON_stringify]. unfold quote.
  rewrite !quote_body_app, (quote_body_plain ref (ref_re_plain ref L)).
  exists ("{" +:+ pre +:+ quote k +:+ ":" +:+ dquote +:+ quote_body a),
         (quote_body b +:+ dquote +:+ post +:+ "}").
  unfold quote. now rewrite !append_assoc.
Qed.

End ScanFacts.

(** ** Properties of the variable-reference pass *)

Module VariableReferences.

Import RegexFacts DataflowFacts ReferenceGrammar ScanFacts.

(** C3: a reference in step [k] to a name that is bound only as the output
    of step [j], with [k <= j], is flagged at step [k] (a step cannot read
    its own output); once step [j] has bound the name, no step after [j] is
    flagged for it; and the set of bound names only grows along the walk.
    A step refers to [n] when its serialized inputs hold [{{n]...[}}]. *)
Theorem forward_only_scope (l : list Step) (n : string) :
  (forall j sj k sk,
     l !! j = Some sj -> outputAs sj = Some n ->
     (forall i si, l !! i = Some si -> outputAs si = Some n -> i = j) ->
     n ∉ builtins ->
     k <= j -> l !! k = Some sk -> referenced sk n ->
     In (undeclared_error k n) (errors (validateVariableReferences l)))
  /\ (forall j sj m,
        l !! j = Some sj -> outputAs sj = Some n -> j < m ->
        ~ In (undeclared_error m n) (errors (validateVariableReferences l)))
  /\ (forall i j, i <= j -> declared_before l i ⊆ declared_before l j)
  /\ (forall step index st, declaredVars st ⊆ declaredVars (visit step index st))
  /\ (forall step,
        referenced step n <->
        exists props idx pre post,
          JSON_stringify (inputs step)
            = pre +:+ ("{{" +:+ n +:+ props +:+ idx +:+ "}}") +:+ post
          /\ n <> "" /\ all_chars is_word n = true
          /\ lang (Star (Seq (Chr ".") (Plus (Cls is_word)))) props
          /\ lang (Star (Seq (Chr "[") (Seq (Plus (Cls is_digit)) (Chr "]")))) idx).
Proof.
  split; [|split; [|split; [|split]]].
  - intros j sj k sk Hj Hout Honly Hnb Hkj Hk Href.
    apply validateVariableReferences_In. exists k, sk, n.
    split; [assumption|]. split; [assumption|]. split; [|reflexivity].
    rewrite declared_before_elem. intros [H|(i & si & Hi & Hl & Ho & _)].
    + contradiction.
    + apply (Honly i si Hl) in Ho. lia.
  - intros j sj m Hj Hout Hjm Hin.
    apply validateVariableReferences_In in Hin.
    destruct Hin as (k & step & v & Hk & (ref & Hr & Hv) & Hnd & E).
    apply undeclared_error_inj in E. destruct E as [-> ->].
    apply Hnd. apply declared_before_elem. right. exists j, sj.
    apply varName_word in Hv. destruct Hv as [_ T]. auto.
  - intros i j Hij. now apply declared_before_mono.
  - intros step index st. apply register_mono.
  - intros step. apply referenced_spec.
Qed.

Lemma forward_only_scope_witness :
  In (undeclared_error 0 "s") (errors (validateVariableReferences Sample.self_then_later))
  /\ ~ In (undeclared_error 1 "s") (errors (validateVariableReferences Sample.self_then_later)).
Proof.
  destruct (forward_only_scope Sample.self_then_later "s") as (Ha & Hb & _ & _ & Hc).
  split.
  - apply (Ha 0 (Sample.step_of [("x", JStr "{{s}}")] (Some "s")) 0
              (Sample.step_of [("x", JStr "{{s}}")] (Some "s"))).
    + reflexivity.
    + reflexivity.
    + intros [|[|[|i]]] si Hi Ho; [reflexivity | | |]; vm_compute in Hi;
        [injection Hi as <-; discriminate Ho | discriminate Hi | discriminate Hi].
    + unfold builtins. rewrite elem_of_union, !elem_of_singleton. intros [H|H]; discriminate H.
    + lia.
    + reflexivity.
    + apply Hc.
      exists "", "", ("{" +:+ dquote +:+ "x" +:+ dquote +:+ ":" +:+ dquote), (dquote +:+ "}").
      repeat split; [discriminate | constructor | constructor].
  - apply (Hb 0 (Sample.step_of [("x", JStr "{{s}}")] (Some "s")) 1).
    + reflexivity.
    + reflexivity.
    + lia.
Defined.

(** C8: no diagnostic of the pass names [user] or [trigger], whatever the
    steps are and wherever the reference stands; both names are bound from
    the start of the walk, before any step. *)
Theorem builtins_never_flagged (l : list Step) :
  (forall k, ~ In (undeclared_error k "user") (errors (validateVariableReferences l)))
  /\ (forall k, ~ In (undeclared_error k "trigger") (errors (validateVariableReferences l)))
  /\ (forall d, In d (errors (validateVariableReferences l)) ->
        message d <> "Reference to undeclared variable: user"
        /\ message d <> "Reference to undeclared variable: trigger")
  /\ declared_before l 0 = builtins
  /\ (forall k, builtins ⊆ declared_before l k).
Proof.
  assert (Hsub : forall k, builtins ⊆ declared_before l k).
  { intros k n Hn. apply declared_before_elem. now left. }
  assert (Hmsg : forall d, In d (errors (validateVariableReferences l)) ->
            forall b, b ∈ builtins ->
            message d <> "Reference to undeclared variable: " +:+ b).
  { intros d Hd b Hb E. apply validateVariableReferences_In in Hd.
    destruct Hd as (k & step & v & _ & _ & Hnd & ->).
    simpl in E. apply String.app_inj in E. subst v. apply Hnd. now apply Hsub. }
  assert (Hu : "user" ∈ builtins) by (unfold builtins; set_solver).
  assert (Ht : "trigger" ∈ builtins) by (unfold builtins; set_solver).
  split; [|split; [|split; [|split]]].
  - intros k Hin. now apply (Hmsg _ Hin "user" Hu).
  - intros k Hin. now apply (Hmsg _ Hin "trigger" Ht).
  - intros d Hd. split.
    + apply (Hmsg d Hd "user" Hu).
    + apply (Hmsg d Hd "trigger" Ht).
  - unfold declared_before. now rewrite take_0.
  - exact Hsub.
Qed.

(** C10: the pass examines nothing but the substrings of the serialized
    inputs that are words of [ref_re], that is an identifier of word
    characters between the markers, followed by dotted identifiers and then
    by bracketed indices, and checks each under that identifier; a
    diagnostic of a step always comes from such a substring; and a
    placeholder outside the grammar (a hyphenated name, inner blanks, an
    index before a dotted access) is not extracted and yields no diagnostic
    under any set of bound names. *)
Theorem only_grammar_references (step : Step) (D : gset string) (index : nat) :
  (forall ref, In ref (varRefs step) ->
     (exists pre post, JSON_stringify (inputs step) = pre +:+ ref +:+ post)
     /\ lang ref_re ref
     /\ exists name props idx,
          ref = "{{" +:+ name +:+ props +:+ idx +:+ "}}"
          /\ name <> "" /\ all_chars is_word name = true
          /\ lang (Star (Seq (Chr ".") (Plus (Cls is_word)))) props
          /\ lang (Star (Seq (Chr "[") (Seq (Plus (Cls is_digit)) (Chr "]")))) idx
          /\ match_group 1 name_re ref = Some name)
  /\ (forall t, ~ lang ref_re t -> ~ In t (varRefs step))
  /\ (forall d, In d (step_errors D index step) ->
        exists ref v, In ref (varRefs step) /\ lang ref_re ref
          /\ match_group 1 name_re ref = Some v /\ (v ∉ D) /\ d = undeclared_error index v)
  /\ (forall body,
        In body ["my-var"; " r "; "a[0].b"] ->
        let st := Sample.step_of [("x", JStr ("{{" +:+ body +:+ "}}"))] None in
        varRefs st = [] /\ step_errors D index st = []
        /\ validateVariableReferences [st] = {| valid := true; errors := [] |}).
Proof.
  assert (H1 : forall ref, In ref (varRefs step) ->
     lang ref_re ref /\ exists pre post, JSON_stringify (inputs step) = pre +:+ ref +:+ post).
  { intros ref Hr. now apply match_all_sound. }
  split; [|split; [|split]].
  - intros ref Hr. apply H1 in Hr. destruct Hr as [L Hsub].
    split; [assumption|]. split; [assumption|]. now apply ref_re_name.
  - intros t Hn Hin. apply Hn. now apply H1.
  - intros d Hd. unfold step_errors in Hd. apply in_flat_map in Hd.
    destruct Hd as (ref & Hr & Hd). apply check_ref_In in Hd.
    destruct Hd as (v & E & Hv & ->). exists ref, v.
    split; [assumption|]. split; [now apply H1|]. auto.
  - intros body Hb. simpl in Hb.
    assert (Hv : varRefs (Sample.step_of [("x", JStr ("{{" +:+ body +:+ "}}"))] None) = []).
    { destruct Hb as [<-|[<-|[<-|[]]]]; vm_compute; reflexivity. }
    cbv zeta. split; [exact Hv|]. split.
    + unfold step_errors. now rewrite Hv.
    + unfold validateVariableReferences. simpl. unfold step_errors. now rewrite Hv.
Qed.

End VariableReferences.

(** ** The sample schema meets what the theorems ask of AJV *)

Module SampleFacts.

Lemma outcome_of_reports (errs : list ErrorObject) :
  (ok (Sample.outcome_of errs) = true -> reported (Sample.outcome_of errs) = None)
  /\ (ok (Sample.outcome_of errs) = false ->
       exists e es, reported (Sample.outcome_of errs) = Some (e :: es)).
Proof.
  destruct errs as [|e es]; simpl; split; try discriminate; eauto.
Qed.

(** A failed call leaves at least one violation. *)
Lemma sem_reports (v : Validator) (data : json) :
  ok (Sample.sem v data) = false ->
  exists e es, reported (Sample.sem v data) = Some (e :: es).
Proof. apply outcome_of_reports. Qed.

(** A document the sample schema accepts has the shape of the cast. *)
Lemma sem_shape (doc : json) :
  ok (Sample.sem validateWorkflow doc) = true -> exists w, as_Workflow doc = Some w.
Proof.
  unfold Sample.sem, Sample.outcome_of, Sample.workflowSchema. cbn [ok].
  destruct (is_empty (_ ++ _)) eqn:E.
  - destruct (as_Workflow doc) as [w|]; [eauto | discriminate].
  - now rewrite E.
Qed.

Lemma missing_keyword (at_path : string) (data : json) (fields : list string) (e : ErrorObject) :
  In e (Sample.missing at_path data fields) -> e_keyword e = "required".
Proof.
  unfold Sample.missing. intros H. apply in_flat_map in H.
  destruct H as (f & _ & H). destruct (prop f data); [destruct H|].
  now destruct H as [<-|[]].
Qed.

(** The violations it reports carry schema keywords. *)
Lemma sem_keywords (v : Validator) (data : json) (es : list ErrorObject) (e : ErrorObject) :
  reported (Sample.sem v data) = Some es -> In e es -> ~ In (e_keyword e) pass_keywords.
Proof.
  assert (Hreq : e_keyword e = "required" \/ e_keyword e = "type" ->
                 ~ In (e_keyword e) pass_keywords).
  { intros [-> | ->]; vm_compute; intuition discriminate. }
  unfold Sample.sem, Sample.outcome_of. cbn [reported].
  intros H He. apply Hreq.
  destruct (is_empty _) eqn:E; [discriminate|]. injection H as <-.
  destruct v; try (left; eapply missing_keyword; eassumption).
  unfold Sample.workflowSchema in He.
  destruct (is_empty (_ ++ _)).
  - destruct (as_Workflow data); [destruct He|]. destruct He as [<-|[]]. now right.
  - left. apply in_app_iff in He. destruct He as [He|He].
    + eapply missing_keyword; eassumption.
    + destruct (prop "config" data); [|destruct He]. eapply missing_keyword; eassumption.
Qed.

End SampleFacts.

(** ** The capability-path pass *)

Module ModulePaths.

Import DataflowFacts.

Local Arguments String.append !_ _ / : simpl nomatch.

Section Registry.

Variable registry : list Category.

Lemma foldl_elem {A : Type} (F : gset string -> A -> gset string)
    (P : A -> string -> Prop) :
  (forall acc a x, x ∈ F acc a <-> x ∈ acc \/ P a x) ->
  forall l init x, x ∈ foldl F init l <-> x ∈ init \/ exists a, In a l /\ P a x.
Proof.
  intros HF. induction l as [|a l IH]; intros init x; simpl.
  - split; [auto|]. intros [H|(a & [] & _)]. assumption.
  - rewrite IH, HF. split.
    + intros [[H|H]|(b & Hb & H)]; eauto.
    + intros [H|(b & [<-|Hb] & H)]; eauto.
Qed.

(** [validPaths] holds the dotted paths of the functions of the catalog. *)
Lemma validPaths_spec (p : string) :
  p ∈ validPaths registry <->
  exists c m f, In c registry /\ In m (modules c) /\ In f (functions m)
                /\ p = full_path c m f.
Proof.
  unfold validPaths.
  rewrite (foldl_elem _ (fun c x => exists m f, In m (modules c) /\ In f (functions m)
                                      /\ x = full_path c m f)).
  - rewrite elem_of_empty. split.
    + intros [[]|(c & Hc & m & f & H)]. eauto 10.
    + intros (c & m & f & Hc & H). right. eauto 10.
  - intros acc c x.
    rewrite (foldl_elem _ (fun m x => exists f, In f (functions m) /\ x = full_path c m f)).
    + split.
      * intros [H|(m & Hm & f & H)]; eauto 10.
      * intros [H|(m & f & Hm & H)]; eauto 10.
    + intros acc' m y.
      rewrite (foldl_elem _ (fun f x => x = full_path c m f)).
      * reflexivity.
      * intros acc'' f z. rewrite elem_of_union, elem_of_singleton. tauto.
Qed.

Lemma foldl_push {A B : Type} (f : A -> list B) (l : list A) (acc : list B) :
  foldl (fun acc a => acc ++ f a) acc l = acc ++ flat_map f l.
Proof.
  revert acc. induction l as [|a l IH]; intros acc; simpl.
  - now rewrite app_nil_r.
  - rewrite IH. now rewrite <- app_assoc.
Qed.

Lemma validateModulePaths_errors (l : list Step) :
  errors (validateModulePaths registry l) = flat_map (check_module registry) l.
Proof. unfold validateModulePaths. simpl. now rewrite foldl_push. Qed.

Lemma check_module_absent (step : Step) :
  module step ∉ validPaths registry ->
  check_module registry step = [module_error registry step].
Proof. intros H. unfold check_module. apply has_false in H. now rewrite H. Qed.

Lemma check_module_present (step : Step) :
  module step ∈ validPaths registry -> check_module registry step = [].
Proof. intros H. unfold check_module. apply has_true in H. now rewrite H. Qed.

Lemma find_name_None {A : Type} (name : A -> string) (target : option string) (l : list A) :
  List.find (fun x => bool_decide (Some (name x) = target)) l = None <->
  forall x, In x l -> Some (name x) <> target.
Proof.
  split.
  - intros H x Hx E. apply (find_none _ _ H) in Hx.
    apply bool_decide_eq_false in Hx. contradiction.
  - intros H. destruct (List.find _ l) as [x|] eqn:E; [|reflexivity].
    apply find_some in E. destruct E as [Hx E]. apply bool_decide_eq_true in E.
    now apply H in Hx.
Qed.

(** C4: a step whose path is the path of no function of the catalog gets
    exactly one [module-exists] diagnostic, placed between those of the
    steps before and after it; its suggestion names all categories when the
    first segment is no category, else the modules of that category when
    the second segment is no module of it, else the functions of that
    module; the suggestion is never empty. *)
Theorem graduated_suggestion (l1 l2 : list Step) (step : Step) :
  (forall c m f, In c registry -> In m (modules c) -> In f (functions m) ->
     module step <> full_path c m f) ->
  let categoryName := split "." (module step) !! 0 in
  let moduleName := split "." (module step) !! 1 in
  let d := module_error registry step in
  errors (validateModulePaths registry (l1 ++ step :: l2)) =
    errors (validateModulePaths registry l1) ++ [d]
      ++ errors (validateModulePaths registry l2)
  /\ keyword d = "module-exists"
  /\ path d = "/config/steps/" +:+ id step +:+ "/module"
  /\ ((forall c, In c registry -> Some (cat_name c) <> categoryName) ->
      suggestion d =
        Some ("Category " +:+ quoted (template_str categoryName)
                +:+ " not found. Available: " +:+ join ", " (map cat_name registry)))
  /\ (forall c,
        List.find (fun c => bool_decide (Some (cat_name c) = categoryName)) registry = Some c ->
        (forall m, In m (modules c) -> Some (mod_name m) <> moduleName) ->
        suggestion d =
          Some ("Module " +:+ quoted (template_str moduleName)
                  +:+ " not found in category " +:+ quoted (template_str categoryName)
                  +:+ ". Available: " +:+ join ", " (map mod_name (modules c))))
  /\ (forall c m,
        List.find (fun c => bool_decide (Some (cat_name c) = categoryName)) registry = Some c ->
        List.find (fun m => bool_decide (Some (mod_name m) = moduleName)) (modules c) = Some m ->
        suggestion d =
          Some ("Function not found in " +:+ template_str categoryName +:+ "."
                  +:+ template_str moduleName +:+ ". Available: "
                  +:+ join ", " (map fn_name (functions m))))
  /\ (exists text, suggestion d = Some text /\ text <> "").
Proof.
  intros Hcat categoryName moduleName d.
  assert (Habs : module step ∉ validPaths registry).
  { intros H. apply validPaths_spec in H. destruct H as (c & m & f & Hc & Hm & Hf & E).
    now apply (Hcat c m f). }
  split; [|split; [reflexivity|split; [reflexivity|split; [|split; [|split]]]]].
  - rewrite !validateModulePaths_errors, flat_map_app. simpl.
    now rewrite (check_module_absent _ Habs).
  - intros Hnone. apply find_name_None in Hnone.
    unfold d, module_error, suggest; cbn [suggestion].
    fold categoryName. now rewrite Hnone.
  - intros c Hc Hnone. apply find_name_None in Hnone.
    unfold d, module_error, suggest; cbn [suggestion].
    fold categoryName moduleName. now rewrite Hc, Hnone.
  - intros c m Hc Hm.
    unfold d, module_error, suggest; cbn [suggestion].
    fold categoryName moduleName. now rewrite Hc, Hm.
  - unfold d, module_error, suggest; cbn [suggestion].
    destruct (List.find _ registry) as [c|]; [destruct (List.find _ (modules c)) as [m|]|];
      eexists; (split; [reflexivity|]); simpl; discriminate.
Qed.

End Registry.

Lemma graduated_suggestion_witness :
  errors (validateModulePaths Sample.registry
            [Sample.step_of [] None;
             {| id := "s1"; module := "ai.openai.chat"; inputs := JObj []; outputAs := None |}]) =
  [ {| path := "/config/steps/s1/module";
       message := "Module path " +:+ quoted "ai.openai.chat" +:+ " not found in registry";
       keyword := "module-exists";
       params := None;
       suggestion := Some "Function not found in ai.openai. Available: generateText" |} ].
Proof.
  pose proof (graduated_suggestion Sample.registry [Sample.step_of [] None] []
    {| id := "s1"; module := "ai.openai.chat"; inputs := JObj []; outputAs := None |}) as H.
  cbv zeta in H. destruct H as (H & _).
  - intros c m f Hc Hm Hf E.
    assert (Hin : "ai.openai.chat" ∈ validPaths Sample.registry).
    { apply validPaths_spec. exists c, m, f. auto. }
    apply has_true in Hin. vm_compute in Hin. discriminate Hin.
  - simpl app in H. rewrite H. vm_compute. reflexivity.
Defined.

End ModulePaths.

(** ** The output-display pass *)

Module OutputDisplayFacts.

Local Arguments String.append !_ _ / : simpl nomatch.

Lemma prefix_spec (a s : string) :
  String.prefix a s = true <-> exists post, s = a +:+ post.
Proof.
  revert s. induction a as [|x a IH]; intros s.
  - split; [intros _; now exists s | intros _; now destruct s].
  - destruct s as [|y s]; simpl.
    + split; [discriminate | intros (post & H); discriminate].
    + destruct (Ascii.ascii_dec x y) as [->|Hne].
      * rewrite IH. split; intros (post & H); exists post; [now rewrite H | now injection H].
      * split; [discriminate | intros (post & H); injection H; congruence].
Qed.

(** [includes] holds exactly when the needle occurs in the string. *)
Lemma includes_spec (needle : string) :
  forall hay, includes needle hay = true <-> exists pre post, hay = pre +:+ needle +:+ post.
Proof.
  induction hay as [|c hay IH]; cbn [includes]; rewrite orb_true_iff, prefix_spec.
  - split.
    + intros [(post & H)|H]; [exists "", post; exact H | discriminate].
    + intros (pre & post & H). left. destruct pre; [now exists post | discriminate].
  - rewrite IH. split.
    + intros [(post & H)|(pre & post & H)]; [now exists "", post|].
      exists (String c pre), post. simpl. now rewrite H.
    + intros (pre & post & H). destruct pre as [|x pre]; simpl in H.
      * left. now exists post.
      * right. injection H as -> H. eauto.
Qed.

(** C6: a table display whose columns are missing or empty gets exactly one
    [table-columns] diagnostic; with at least one column it gets none; and
    the pass is silent and valid when the display or the last step is
    absent. *)
Theorem table_requires_columns (d : OutputDisplay) (st : Step) :
  display_type d = "table" ->
  (columns d = None \/ columns d = Some [] ->
     count_keyword "table-columns" (errors (validateOutputDisplay (Some d) (Some st))) = 1
     /\ In table_columns_error (errors (validateOutputDisplay (Some d) (Some st)))
     /\ valid (validateOutputDisplay (Some d) (Some st)) = false)
  /\ (forall c cs, columns d = Some (c :: cs) ->
        count_keyword "table-columns" (errors (validateOutputDisplay (Some d) (Some st))) = 0)
  /\ (forall last, validateOutputDisplay None last = {| valid := true; errors := [] |})
  /\ (forall od, validateOutputDisplay od None = {| valid := true; errors := [] |}).
Proof.
  intros Ht. split; [|split; [|split]].
  - intros Hc. unfold validateOutputDisplay, no_columns. rewrite Ht.
    assert (Hn : match columns d with Some cols => is_empty cols | None => true end = true).
    { destruct Hc as [->| ->]; reflexivity. }
    rewrite Hn. change (String.eqb "table" "table") with true. cbn [andb].
    destruct (existsb (fun m => includes m (module st)) singleValueModules);
      (split; [vm_compute; reflexivity | split; [now left | reflexivity]]).
  - intros c cs Hc. unfold validateOutputDisplay, no_columns. rewrite Ht, Hc.
    change (String.eqb "table" "table") with true. cbn [andb is_empty length Nat.eqb].
    destruct (existsb (fun m => includes m (module st)) singleValueModules);
      vm_compute; reflexivity.
  - intros last. reflexivity.
  - intros [od|]; reflexivity.
Qed.

Lemma table_requires_columns_witness :
  count_keyword "table-columns"
    (errors (validateOutputDisplay
               (Some {| display_type := "table"; columns := None |})
               (Some (Sample.step_of [] None)))) = 1
  /\ count_keyword "table-columns"
       (errors (validateOutputDisplay
                  (Some {| display_type := "table";
                           columns := Some [ {| key := "k"; label := "K" |} ] |})
                  (Some (Sample.step_of [] None)))) = 0.
Proof.
  split.
  - apply (table_requires_columns {| display_type := "table"; columns := None |}
             (Sample.step_of [] None)); [reflexivity | left; reflexivity].
  - eapply (table_requires_columns
              {| display_type := "table"; columns := Some [ {| key := "k"; label := "K" |} ] |}
              (Sample.step_of [] None)); reflexivity.
Defined.

Lemma type_mismatch_emitted (d : OutputDisplay) (st : Step) (frag pre post : string) :
  display_type d = "table" ->
  In frag singleValueModules ->
  module st = pre +:+ frag +:+ post ->
  In type_mismatch_error (errors (validateOutputDisplay (Some d) (Some st))).
Proof.
  intros Ht Hf Hm. unfold validateOutputDisplay. rewrite Ht.
  assert (He : existsb (fun m => includes m (module st)) singleValueModules = true).
  { apply existsb_exists. exists frag. split; [assumption|].
    apply includes_spec. eauto. }
  rewrite He. change (String.eqb "table" "table") with true. cbn [andb errors].
  apply in_app_iff. right. now left.
Qed.

End OutputDisplayFacts.

(** ** The aggregator *)

Module Complete.

Import OutputDisplayFacts.

Section Aggregator.

Variable sem : Validator -> json -> Outcome.
Variable registry : list Category.

Lemma errors_of_set_errors (v : Validator) (e : option (list ErrorObject)) (st : State) :
  errors_of v (set_errors v e st) = e.
Proof. destruct v; reflexivity. Qed.

(** The result of the structure pass is read from what this very call left
    in [validateWorkflow.errors]. *)
Lemma validateWorkflowStructure_result (doc : json) (st : State) :
  fst (validateWorkflowStructure sem doc st) =
  if ok (sem validateWorkflow doc)
  then {| valid := true; errors := [] |}
  else {| valid := false;
          errors := formatAjvErrors (reported (sem validateWorkflow doc)) |}.
Proof.
  unfold validateWorkflowStructure, call.
  destruct (ok (sem validateWorkflow doc)); reflexivity.
Qed.

Lemma validateTrigger_result (t : Trigger) (st : State) :
  errors (fst (validateTrigger sem t st)) = trigger_errors sem t.
Proof.
  unfold trigger_errors, validateTrigger, call.
  destruct (String.eqb (trigger_type t) "chat-input");
    [|destruct (String.eqb (trigger_type t) "cron");
      [|destruct (String.eqb (trigger_type t) "chat")]];
    try reflexivity;
    destruct (ok (sem _ (config t))); reflexivity.
Qed.

Lemma validateWorkflowComplete_invalid (doc : json) (st : State) :
  ok (sem validateWorkflow doc) = false ->
  fst (validateWorkflowComplete sem registry doc st) =
  Some {| valid := false;
          errors := formatAjvErrors (reported (sem validateWorkflow doc)) |}.
Proof.
  intros Hok. unfold validateWorkflowComplete.
  pose proof (validateWorkflowStructure_result doc st) as H.
  destruct (validateWorkflowStructure sem doc st) as [r st1]. simpl in H.
  rewrite Hok in H. subst r. reflexivity.
Qed.

Lemma validateWorkflowComplete_valid (doc : json) (st : State) (w : Workflow) :
  ok (sem validateWorkflow doc) = true ->
  as_Workflow doc = Some w ->
  fst (validateWorkflowComplete sem registry doc st) =
  Some {| valid := is_empty (all_errors sem registry w); errors := all_errors sem registry w |}.
Proof.
  intros Hok Hw. unfold validateWorkflowComplete.
  pose proof (validateWorkflowStructure_result doc st) as H.
  destruct (validateWorkflowStructure sem doc st) as [r st1]. simpl in H.
  rewrite Hok in H. subst r. cbn [valid negb]. rewrite Hw.
  unfold all_errors. destruct (trigger w) as [t|].
  - pose proof (validateTrigger_result t st1) as Ht.
    destruct (validateTrigger sem t st1) as [tr st2]. simpl in Ht. rewrite <- Ht.
    cbn [fst]. rewrite !app_nil_l, <- !app_assoc. reflexivity.
  - cbn [fst]. rewrite !app_nil_l, <- !app_assoc. reflexivity.
Qed.

Lemma is_empty_spec {A : Type} (l : list A) : is_empty l = true <-> l = [].
Proof. destruct l; simpl; split; (reflexivity || discriminate). Qed.

Lemma formatAjvError_keyword (e : ErrorObject) : keyword (formatAjvError e) = e_keyword e.
Proof. reflexivity. Qed.

Lemma validateWorkflowComplete_outside (doc : json) (st : State) :
  ok (sem validateWorkflow doc) = true ->
  as_Workflow doc = None ->
  fst (validateWorkflowComplete sem registry doc st) = None.
Proof.
  intros Hok Hw. unfold validateWorkflowComplete.
  pose proof (validateWorkflowStructure_result doc st) as H.
  destruct (validateWorkflowStructure sem doc st) as [r st1]. simpl in H.
  rewrite Hok in H. subst r. cbn [valid negb]. now rewrite Hw.
Qed.

(** C1: a document that fails the structural schema is answered by the
    structure pass alone: the result is invalid, holds one diagnostic for
    each violation AJV reported (at least one), and none with the keyword of
    a later pass. *)
Theorem schema_gate (doc : json) (st : State) (e : ErrorObject) (es : list ErrorObject) :
  ok (sem validateWorkflow doc) = false ->
  reported (sem validateWorkflow doc) = Some (e :: es) ->
  (forall x, In x (e :: es) -> ~ In (e_keyword x) pass_keywords) ->
  exists r,
    fst (validateWorkflowComplete sem registry doc st) = Some r
    /\ r = fst (validateWorkflowStructure sem doc st)
    /\ valid r = false
    /\ errors r = map formatAjvError (e :: es)
    /\ errors r <> []
    /\ (forall d, In d (errors r) -> ~ In (keyword d) pass_keywords).
Proof.
  intros Hok Hrep Hkw. eexists. split; [now apply validateWorkflowComplete_invalid|].
  rewrite validateWorkflowStructure_result, Hok, Hrep.
  split; [reflexivity|]. split; [reflexivity|]. split; [reflexivity|].
  split; [discriminate|].
  intros d Hd. cbn [errors formatAjvErrors] in Hd. apply in_map_iff in Hd.
  destruct Hd as (x & <- & Hx). rewrite formatAjvError_keyword. now apply Hkw.
Qed.

(** C2, as the code has it: the trigger sub-schema is checked after the
    structural gate and is no gate itself.  For a schema-valid document
    with a trigger the result starts with the trigger diagnostics and goes
    on with those of the capability-path, variable-reference and
    output-display passes, which all run; trigger diagnostics make the
    result invalid. *)
Theorem trigger_checked_after_gate (doc : json) (st : State) (w : Workflow) (t : Trigger) :
  ok (sem validateWorkflow doc) = true ->
  as_Workflow doc = Some w ->
  trigger w = Some t ->
  let M := errors (validateModulePaths registry (steps (wf_config w))) in
  let V := errors (validateVariableReferences (steps (wf_config w))) in
  let O := errors (validateOutputDisplay (outputDisplay (wf_config w))
                     (last_step (steps (wf_config w)))) in
  exists r,
    fst (validateWorkflowComplete sem registry doc st) = Some r
    /\ (forall st', errors r = errors (fst (validateTrigger sem t st')) ++ M ++ V ++ O)
    /\ (forall st', errors (fst (validateTrigger sem t st')) <> [] -> valid r = false)
    /\ (forall d, In d (M ++ V ++ O) -> In d (errors r)).
Proof.
  intros Hok Hw Ht M V O. eexists.
  split; [now apply (validateWorkflowComplete_valid doc st w)|].
  cbn [errors valid]. unfold all_errors. rewrite Ht. fold M V O.
  split; [|split].
  - intros st'. now rewrite validateTrigger_result.
  - intros st' Hne. rewrite validateTrigger_result in Hne.
    destruct (trigger_errors sem t); [contradiction | reflexivity].
  - intros d Hd. apply in_app_iff. now right.
Qed.

(** C5: for a schema-valid document the three passes always run; the
    result lists the trigger diagnostics, if any, and then the diagnostics
    of the capability-path, variable-reference and output-display passes in
    that order; [valid] holds exactly when the list is empty. *)
Theorem passes_concatenated (doc : json) (st : State) (w : Workflow) :
  ok (sem validateWorkflow doc) = true ->
  as_Workflow doc = Some w ->
  let M := errors (validateModulePaths registry (steps (wf_config w))) in
  let V := errors (validateVariableReferences (steps (wf_config w))) in
  let O := errors (validateOutputDisplay (outputDisplay (wf_config w))
                     (last_step (steps (wf_config w)))) in
  exists r T,
    fst (validateWorkflowComplete sem registry doc st) = Some r
    /\ (forall st', T = match trigger w with
                        | Some t => errors (fst (validateTrigger sem t st'))
                        | None => []
                        end)
    /\ errors r = T ++ M ++ V ++ O
    /\ (valid r = true <-> errors r = [])
    /\ (T = [] -> errors r = M ++ V ++ O /\ (valid r = true <-> M ++ V ++ O = [])).
Proof.
  intros Hok Hw M V O.
  exists {| valid := is_empty (all_errors sem registry w); errors := all_errors sem registry w |},
         (match trigger w with Some t => trigger_errors sem t | None => [] end).
  split; [now apply validateWorkflowComplete_valid|].
  split; [|split; [reflexivity|split]].
  - intros st'. destruct (trigger w); [now rewrite validateTrigger_result | reflexivity].
  - apply is_empty_spec.
  - intros HT. cbn [errors valid]. unfold all_errors. fold M V O. rewrite HT.
    split; [reflexivity|]. apply is_empty_spec.
Qed.

(** C7: a table display after a last step whose path contains one of the
    scalar fragments gets the [output-type-mismatch] diagnostic, from the
    pass and in the result for the whole schema-valid document. *)
Theorem scalar_last_step_flagged (doc : json) (st : State) (w : Workflow)
    (d : OutputDisplay) (s : Step) (frag pre post : string) :
  ok (sem validateWorkflow doc) = true ->
  as_Workflow doc = Some w ->
  outputDisplay (wf_config w) = Some d ->
  last_step (steps (wf_config w)) = Some s ->
  display_type d = "table" ->
  In frag singleValueModules ->
  module s = pre +:+ frag +:+ post ->
  In type_mismatch_error (errors (validateOutputDisplay (Some d) (Some s)))
  /\ keyword type_mismatch_error = "output-type-mismatch"
  /\ exists r,
       fst (validateWorkflowComplete sem registry doc st) = Some r
       /\ In type_mismatch_error (errors r) /\ valid r = false.
Proof.
  intros Hok Hw Hd Hs Ht Hf Hm.
  pose proof (type_mismatch_emitted d s frag pre post Ht Hf Hm) as Hin.
  split; [assumption|]. split; [reflexivity|]. eexists.
  split; [now apply (validateWorkflowComplete_valid doc st w)|].
  assert (Hall : In type_mismatch_error (all_errors sem registry w)).
  { unfold all_errors. rewrite Hd, Hs. rewrite !in_app_iff. auto. }
  cbn [errors valid]. split; [assumption|].
  destruct (all_errors sem registry w); [destruct Hall | reflexivity].
Qed.

(** C9: the result does not depend on what earlier calls left in the
    validators; in particular a second call on the same document, run in
    the state the first call leaves, gives the same result. *)
Theorem validation_deterministic (doc : json) (st st' : State) :
  fst (validateWorkflowComplete sem registry doc st) =
    fst (validateWorkflowComplete sem registry doc st')
  /\ fst (validateWorkflowComplete sem registry doc
            (snd (validateWorkflowComplete sem registry doc st))) =
     fst (validateWorkflowComplete sem registry doc st).
Proof.
  assert (H : forall s1 s2, fst (validateWorkflowComplete sem registry doc s1) =
                            fst (validateWorkflowComplete sem registry doc s2)).
  { intros s1 s2. destruct (ok (sem validateWorkflow doc)) eqn:Hok.
    - destruct (as_Workflow doc) as [w|] eqn:Hw.
      + now rewrite !(validateWorkflowComplete_valid doc _ w).
      + now rewrite !validateWorkflowComplete_outside.
    - now rewrite !validateWorkflowComplete_invalid. }
  split; apply H.
Qed.

End Aggregator.

Lemma schema_gate_witness :
  fst (validateWorkflowComplete Sample.sem Sample.registry Sample.doc_no_steps fresh) =
  Some {| valid := false;
          errors := [formatAjvError (Sample.required_error "/config" (JObj []) "steps")] |}.
Proof.
  destruct (schema_gate Sample.sem Sample.registry Sample.doc_no_steps fresh
              (Sample.required_error "/config" (JObj []) "steps") [])
    as (r & Hr & _ & Hv & He & _).
  - vm_compute. reflexivity.
  - vm_compute. reflexivity.
  - intros x [<-|[]]. vm_compute. intuition discriminate.
  - rewrite Hr. destruct r as [v es]. simpl in Hv, He. now subst.
Defined.

(** C2 fails as stated: a cron trigger without [schedule] violates its
    sub-schema, and the result still carries the [module-exists] diagnostic
    of the capability-path pass next to the trigger diagnostic. *)
Lemma trigger_violation_does_not_gate :
  ok (Sample.sem validateCronTrigger (JObj [])) = false
  /\ exists r,
       fst (validateWorkflowComplete Sample.sem Sample.registry
              Sample.doc_bad_trigger fresh) = Some r
       /\ map keyword (errors r) = ["required"; "module-exists"]
       /\ map path (errors r) = ["root"; "/config/steps/s1/module"].
Proof.
  split; [reflexivity|]. eexists. split; [vm_compute; reflexivity|].
  split; reflexivity.
Qed.

Lemma trigger_checked_after_gate_witness :
  exists r,
    fst (validateWorkflowComplete Sample.sem Sample.registry
           Sample.doc_bad_trigger fresh) = Some r
    /\ valid r = false
    /\ In (module_error Sample.registry
             {| id := "s1"; module := "ai.openai.chat"; inputs := JObj [];
                outputAs := None |}) (errors r).
Proof.
  edestruct (trigger_checked_after_gate Sample.sem Sample.registry
               Sample.doc_bad_trigger fresh) as (r & Hr & _ & Hv & Hin).
  - vm_compute. reflexivity.
  - vm_compute. reflexivity.
  - reflexivity.
  - exists r. split; [exact Hr|]. split.
    + apply (Hv fresh). vm_compute. discriminate.
    + apply Hin. vm_compute. now left.
Defined.

Lemma passes_concatenated_witness :
  fst (validateWorkflowComplete Sample.sem Sample.registry Sample.doc_valid fresh) =
  Some {| valid := true; errors := [] |}.
Proof.
  edestruct (passes_concatenated Sample.sem Sample.registry Sample.doc_valid fresh)
    as (r & T & Hr & HT & He & Hv & _).
  - vm_compute. reflexivity.
  - vm_compute. reflexivity.
  - rewrite Hr. rewrite (HT fresh) in He.
    assert (E : errors r = []) by (rewrite He; vm_compute; reflexivity).
    apply Hv in E as V. destruct r as [v es]. simpl in E, V. now subst.
Defined.

Lemma scalar_last_step_flagged_witness :
  exists r,
    fst (validateWorkflowComplete Sample.sem Sample.registry
           Sample.doc_table_count fresh) = Some r
    /\ In type_mismatch_error (errors r) /\ valid r = false.
Proof.
  edestruct (scalar_last_step_flagged Sample.sem Sample.registry
               Sample.doc_table_count fresh) as (_ & _ & H).
  - vm_compute. reflexivity.
  - vm_compute. reflexivity.
  - reflexivity.
  - reflexivity.
  - reflexivity.
  - right. right. left. reflexivity.
  - instantiate (1 := EmptyString). instantiate (1 := "utilities.array-utils.").
    reflexivity.
  - exact H.
Defined.

End Complete.
